(** * CineAI: the structured-script parser and the cut-list assembly loop

    A shallow embedding of [parse_structured_script] and [assemble_video]
    from [utils.py], with the properties the design document states about
    them.

    Conventions of the embedding:
    - a Python [str] is a [string]; its characters are read as the code
      points below 256, with Python's [str.isspace] and [str.lower] on
      that range;
    - a Python [int] is a [Z]; positions in a list are [nat];
    - an exception is a value [Raise e] of the [result] monad; a
      [try ... except Exception] is a [match] on that value;
    - a JSON number is a rational [Q]; only comparison and subtraction
      are used on it; an entry of the cut list is any JSON value, an
      object or not;
    - the moviepy primitives are the fields of the class [MoviePy]: each
      of them either returns a clip or raises.

    The definitions come first, the properties after them. *)

From Stdlib Require Import ZArith QArith Ascii String Sorted.
From stdpp Require Import base list strings gmap.

Close Scope Q_scope.
Open Scope Z_scope.
Open Scope string_scope.
Open Scope list_scope.

(** ** Exceptions *)

Inductive exn : Type :=
  | KeyError
  | TypeError
  | AttributeError
  | ValueError
  | IndexError
  | ZeroDivisionError
  | MediaError.

Inductive result (A : Type) : Type :=
  | Ok (a : A)
  | Raise (e : exn).
Arguments Ok {A} a.
Arguments Raise {A} e.

#[global] Instance result_ret : MRet result := λ A a, Ok a.
#[global] Instance result_bind : MBind result := λ A B f m,
  match m with
  | Ok a => f a
  | Raise e => Raise e
  end.

(** [for x in xs: st = body st x], where the body may raise. *)
Fixpoint for_each {A S : Type} (body : S → A → result S) (xs : list A) (st : S)
    : result S :=
  match xs with
  | [] => Ok st
  | x :: rest => st' ← body st x; for_each body rest st'
  end.

(** [enumerate(xs)], counting from [i]. *)
Fixpoint enumerate_from {A : Type} (i : nat) (xs : list A) : list (nat * A) :=
  match xs with
  | [] => []
  | x :: rest => (i, x) :: enumerate_from (S i) rest
  end.

Definition enumerate {A : Type} (xs : list A) : list (nat * A) :=
  enumerate_from 0 xs.

(** A list of positions in strictly increasing order. *)
Definition increasing (ns : list nat) : Prop := StronglySorted lt ns.

(** ** Python string operations *)

Module PyStr.

(** [c.isspace()] for a code point below 256. *)
Definition isspace (c : ascii) : bool :=
  let n := nat_of_ascii c in
  ((9 <=? n)%nat && (n <=? 13)%nat) || ((28 <=? n)%nat && (n <=? 32)%nat)
  || (n =? 133)%nat || (n =? 160)%nat.

(** [c.lower()] for a code point below 256. *)
Definition lower_char (c : ascii) : ascii :=
  let n := nat_of_ascii c in
  if ((65 <=? n)%nat && (n <=? 90)%nat)
     || ((192 <=? n)%nat && (n <=? 222)%nat && negb (n =? 215)%nat)
  then ascii_of_nat (n + 32)
  else c.

Fixpoint lower (s : string) : string :=
  match s with
  | EmptyString => EmptyString
  | String c s' => String (lower_char c) (lower s')
  end.

Fixpoint lstrip (s : string) : string :=
  match s with
  | EmptyString => EmptyString
  | String c s' => if isspace c then lstrip s' else s
  end.

Fixpoint rstrip (s : string) : string :=
  match s with
  | EmptyString => EmptyString
  | String c s' =>
      match rstrip s' with
      | EmptyString => if isspace c then EmptyString else String c EmptyString
      | r => String c r
      end
  end.

Definition strip (s : string) : string := rstrip (lstrip s).

(** [s.split('\n')]. *)
Fixpoint split_lines (s : string) : list string :=
  match s with
  | EmptyString => [EmptyString]
  | String c s' =>
      if Ascii.eqb c "010"%char then EmptyString :: split_lines s'
      else match split_lines s' with
           | [] => [String c EmptyString]
           | l :: ls => String c l :: ls
           end
  end.

(** [s.replace(':', '')]. *)
Fixpoint remove_colons (s : string) : string :=
  match s with
  | EmptyString => EmptyString
  | String c s' =>
      if Ascii.eqb c ":"%char then remove_colons s' else String c (remove_colons s')
  end.

Fixpoint startswith (s p : string) : bool :=
  match p, s with
  | EmptyString, _ => true
  | String _ _, EmptyString => false
  | String a p', String b s' => Ascii.eqb a b && startswith s' p'
  end.

(** [k in s] on strings. *)
Fixpoint contains (s k : string) : bool :=
  startswith s k ||
  match s with
  | EmptyString => false
  | String _ s' => contains s' k
  end.

(** Truth value of a string: [bool(s)]. *)
Definition truthy (s : string) : bool :=
  match s with
  | EmptyString => false
  | String _ _ => true
  end.

End PyStr.

(** A line feed. *)
Definition nl : string := String "010"%char EmptyString.

(** [xs.index(x)]: the first position of [x], [ValueError] when absent. *)
Fixpoint py_index (x : nat) (xs : list nat) : result nat :=
  match xs with
  | [] => Raise ValueError
  | y :: rest => if (y =? x)%nat then Ok 0%nat else k ← py_index x rest; Ok (S k)
  end.

(** [xs[i]], [IndexError] when out of range. *)
Definition py_getitem {A : Type} (xs : list A) (i : nat) : result A :=
  match xs !! i with
  | Some x => Ok x
  | None => Raise IndexError
  end.

(** [x in xs] for a list of strings. *)
Definition str_in (x : string) (xs : list string) : bool :=
  existsb (String.eqb x) xs.

(** ** The cue parser *)

Record cue : Type := Cue {
  cue_type : string;
  content : string;
  dialogue_index : Z
}.

Module Parser.

Definition markers : list string := ["dialogue:"; "b-roll:"; "overlay:"].

Definition clean (line : string) : string := PyStr.lower (PyStr.strip line).

(** [[i for i, line in enumerate(lines) if line.strip().lower() == 'dialogue:']] *)
Definition dialogue_indices_of (lines : list string) : list nat :=
  (filter (λ il : nat * string, clean il.2 = "dialogue:") (enumerate lines)).*1.

(** The inner loop over [dialogue_indices] that finds the link of a
    b-roll or overlay cue whose marker is on line [i]. *)
Definition last_dialogue_index_loop (dialogue_indices : list nat) (i : nat)
    : result Z :=
  for_each
    (λ (last_dialogue_index : Z) (idx_dialogue_line : nat),
       if (idx_dialogue_line <? i)%nat
       then k ← py_index idx_dialogue_line dialogue_indices; Ok (Z.of_nat k)
       else Ok last_dialogue_index)
    dialogue_indices (-1).

(** The loop state: [dialogue_count] and [script_cues]. *)
Definition state : Type := Z * list cue.

(** One iteration of [for i, line in enumerate(lines)]. *)
Definition loop_body (lines : list string) (dialogue_indices : list nat)
    (st : state) (il : nat * string) : result state :=
  let '(dialogue_count, script_cues) := st in
  let '(i, line) := il in
  let clean_line := clean line in
  if str_in clean_line markers then
    let cue_type := PyStr.remove_colons clean_line in
    if (i + 1 <? length lines)%nat then
      nxt ← py_getitem lines (i + 1);
      let content := PyStr.strip nxt in
      if PyStr.truthy content then
        if String.eqb cue_type "dialogue" then
          Ok (dialogue_count + 1,
              script_cues ++ [Cue cue_type content dialogue_count])
        else
          last_dialogue_index ← last_dialogue_index_loop dialogue_indices i;
          Ok (dialogue_count,
              script_cues ++ [Cue cue_type content last_dialogue_index])
      else Ok st
    else Ok st
  else Ok st.

Definition parse_lines (lines : list string) : result state :=
  for_each (loop_body lines (dialogue_indices_of lines)) (enumerate lines) (0, []).

Definition parse_structured_script (text : string) : result (list cue) :=
  st ← parse_lines (PyStr.split_lines text); Ok st.2.

(** The loop state after the first [n] iterations. *)
Definition loop_upto (lines : list string) (n : nat) : result state :=
  for_each (loop_body lines (dialogue_indices_of lines))
           (take n (enumerate lines)) (0, []).

(** Iteration [n] of the loop appends exactly the cue [c]. *)
Definition emitted_at (lines : list string) (n : nat) (c : cue) : Prop :=
  ∃ st st', loop_upto lines n = Ok st ∧ loop_upto lines (S n) = Ok st'
            ∧ st'.2 = st.2 ++ [c].

(** Iteration [n] of the loop leaves counter and cue list as they were. *)
Definition contributes_nothing (lines : list string) (n : nat) : Prop :=
  ∃ st, loop_upto lines n = Ok st ∧ loop_upto lines (S n) = Ok st.

End Parser.

(** Following the design document: the dialogue-marker lines of the text,
    in document order. *)
Definition spec_dialogue_marker_lines (lines : list string) : list nat :=
  filter (λ j, Parser.clean <$> lines !! j = Some "dialogue:") (seq 0 (length lines)).

(** Following the design document: the 0-based rank of line [j] among the
    dialogue-marker lines. *)
Definition spec_rank (lines : list string) (j : nat) : Z :=
  Z.of_nat (length (filter (λ k, (k < j)%nat) (spec_dialogue_marker_lines lines))).

(** Following the design document: the link of a non-dialogue cue whose
    marker is on line [i] is the rank of the last dialogue-marker line
    strictly before [i], and -1 when there is none. *)
Definition spec_dialogue_link (lines : list string) (i : nat) : Z :=
  match last (filter (λ j, (j < i)%nat) (spec_dialogue_marker_lines lines)) with
  | Some j => spec_rank lines j
  | None => -1
  end.

(** Number of dialogue-marker lines strictly before line [i]. *)
Definition markers_before (lines : list string) (i : nat) : nat :=
  length (filter (λ j, (j < i)%nat) (spec_dialogue_marker_lines lines)).

(** The cue that iteration [i] appends when the counter is [dc], if any. *)
Definition emission (lines : list string) (dc : Z) (i : nat) : option cue :=
  line ← lines !! i;
  if str_in (Parser.clean line) Parser.markers then
    nxt ← lines !! (i + 1)%nat;
    if PyStr.truthy (PyStr.strip nxt) then
      let ty := PyStr.remove_colons (Parser.clean line) in
      Some (Cue ty (PyStr.strip nxt)
                (if String.eqb ty "dialogue" then dc
                 else Z.of_nat (markers_before lines i) - 1))
    else None
  else None.

Definition after_emission (st : Parser.state) (oc : option cue) : Parser.state :=
  match oc with
  | Some c => ((if String.eqb (cue_type c) "dialogue" then st.1 + 1 else st.1),
               st.2 ++ [c])
  | None => st
  end.

(** Every dialogue-marker line is followed by a line that is not empty
    after trimming. *)
Definition dialogue_markers_have_content (lines : list string) : Prop :=
  ∀ i line, lines !! i = Some line → Parser.clean line = "dialogue:" →
    ∃ nxt, lines !! (i + 1)%nat = Some nxt ∧ PyStr.strip nxt ≠ "".

(** ** Python values of a cut *)

(** The JSON scalars a cut's fields can hold. *)
Inductive pyval : Type :=
  | PyNone
  | PyBool (b : bool)
  | PyNum (x : Q)
  | PyStr (s : string).

Module PyVal.

(** [bool] is a subclass of [int]: it takes part in arithmetic as 0 or 1. *)
Definition as_number (v : pyval) : option Q :=
  match v with
  | PyBool b => Some (if b then 1%Q else 0%Q)
  | PyNum x => Some x
  | _ => None
  end.

(** [a > b]. *)
Definition gt (a b : pyval) : result bool :=
  match a, b with
  | PyStr s, PyStr t => Ok (String.ltb t s)
  | _, _ =>
      match as_number a, as_number b with
      | Some x, Some y => Ok (negb (Qle_bool x y))
      | _, _ => Raise TypeError
      end
  end.

(** [a - b]. *)
Definition sub (a b : pyval) : result pyval :=
  match as_number a, as_number b with
  | Some x, Some y => Ok (PyNum (x - y)%Q)
  | _, _ => Raise TypeError
  end.

(** [v.lower()]. *)
Definition lower (v : pyval) : result string :=
  match v with
  | PyStr s => Ok (PyStr.lower s)
  | _ => Raise AttributeError
  end.

(** [d[key]] on a dict. *)
Definition getitem (d : gmap string pyval) (key : string) : result pyval :=
  match d !! key with
  | Some v => Ok v
  | None => Raise KeyError
  end.

End PyVal.

(** A cut that fails validation: a field is absent, [start] or [end] is
    not a number, or [end] is not later than [start]. *)
Definition rejected (cut : gmap string pyval) : Prop :=
  cut !! "start" = None ∨ cut !! "end" = None ∨ cut !! "text" = None ∨
  ∃ s e, cut !! "start" = Some s ∧ cut !! "end" = Some e ∧
         (PyVal.as_number s = None ∨ PyVal.as_number e = None
          ∨ PyVal.gt e s = Ok false).

(** An entry of the cut list as [json.loads] returns it: an object, a
    scalar or a list. *)
Inductive cut_entry : Type :=
  | CutDict (cut : gmap string pyval)
  | CutScalar (v : pyval)
  | CutList (items : list pyval).

Definition is_dict (entry : cut_entry) : Prop :=
  match entry with
  | CutDict _ => True
  | _ => False
  end.

Module CutEntry.

(** [cut[key]] for a string [key]: on anything but a dict, [TypeError]. *)
Definition getitem (entry : cut_entry) (key : string) : result pyval :=
  match entry with
  | CutDict cut => PyVal.getitem cut key
  | _ => Raise TypeError
  end.

(** [cut.get(key, fallback)]: on anything but a dict, [AttributeError]. *)
Definition get (entry : cut_entry) (key : string) (fallback : pyval) : result pyval :=
  match entry with
  | CutDict cut => Ok (default fallback (cut !! key))
  | _ => Raise AttributeError
  end.

End CutEntry.

(** Truth value of an optional path: [None] and [''] are false. *)
Definition path_truthy (p : option string) : bool :=
  match p with
  | Some s => PyStr.truthy s
  | None => false
  end.

(** ** B-roll matching (the block of [assemble_video] that sets
    [matched_b_roll_path]) *)

Module BRoll.

(** [for keyword in keywords], with its [break]. *)
Fixpoint keywords_loop (b_roll_files : gmap string string) (dialogue_text : pyval)
    (filename : string) (keywords : list string)
    (matched_b_roll_path : option string) : result (option string) :=
  match keywords with
  | [] => Ok matched_b_roll_path
  | keyword :: rest =>
      if PyStr.truthy keyword then
        low ← PyVal.lower dialogue_text;
        if PyStr.contains low keyword then Ok (b_roll_files !! filename)
        else keywords_loop b_roll_files dialogue_text filename rest matched_b_roll_path
      else keywords_loop b_roll_files dialogue_text filename rest matched_b_roll_path
  end.

(** [for filename, keywords in b_roll_keyword_map.items()], with its
    [if matched_b_roll_path: break]. *)
Fixpoint assets_loop (b_roll_files : gmap string string) (dialogue_text : pyval)
    (items : list (string * list string))
    (matched_b_roll_path : option string) : result (option string) :=
  match items with
  | [] => Ok matched_b_roll_path
  | (filename, keywords) :: rest =>
      m ← keywords_loop b_roll_files dialogue_text filename keywords matched_b_roll_path;
      if path_truthy m then Ok m
      else assets_loop b_roll_files dialogue_text rest m
  end.

Definition match_b_roll (b_roll_files : gmap string string)
    (b_roll_keyword_map : list (string * list string)) (dialogue_text : pyval)
    : result (option string) :=
  assets_loop b_roll_files dialogue_text b_roll_keyword_map None.

(** What [if matched_b_roll_path:] lets through. *)
Definition selected (m : option string) : option string :=
  if path_truthy m then m else None.

End BRoll.

(** Following the design document: the first asset, in map order, one of
    whose keywords is a case-insensitive substring of the dialogue text. *)
Definition spec_first_match (b_roll_keyword_map : list (string * list string))
    (dialogue_text : string) : option string :=
  fst <$> find (λ fk : string * list string,
                  existsb (λ k, PyStr.contains (PyStr.lower dialogue_text) (PyStr.lower k)) fk.2)
               b_roll_keyword_map.

(** The design document's policy with the two guards of the code: empty
    keywords do not count, and an asset without a usable path in the asset
    map is passed over. *)
Definition guarded_first_match (b_roll_files : gmap string string)
    (b_roll_keyword_map : list (string * list string))
    (dialogue_text : string) : option string :=
  fst <$> find (λ fk : string * list string,
                  existsb (λ k, PyStr.truthy k &&
                                PyStr.contains (PyStr.lower dialogue_text) (PyStr.lower k)) fk.2
                  && path_truthy (b_roll_files !! fk.1))
               b_roll_keyword_map.

(** ** The moviepy primitives *)

(** [position] argument of [create_text_clip]: a named anchor or a pair. *)
Inductive position : Type :=
  | Anchor (a : string)
  | AnchorXY (x y : string).

(** The calls into moviepy. Each may raise; what it does to the pixels is
    not modelled. *)
Class MoviePy : Type := {
  clip : Type;
  (** [VideoFileClip(path)] *)
  VideoFileClip : string → result clip;
  (** [c.size], as [(w, h)] *)
  clip_size : clip → Z * Z;
  (** [c.subclip(start, end)] *)
  subclip : clip → pyval → pyval → result clip;
  (** [b.set_duration(d).resize(height=h).set_audio(current.audio)] *)
  fit_b_roll : clip → pyval → Z → clip → result clip;
  (** [TextClip(text, fontsize=f, ..., size=(w*0.8, None)).set_pos(p).set_duration(d)] *)
  TextClip : pyval → Z → Z → position → pyval → result clip;
  (** [CompositeVideoClip(layers)] *)
  CompositeVideoClip : list clip → result clip;
  (** [concatenate_videoclips(clips)] *)
  concatenate_videoclips : list clip → result clip;
  (** [ImageClip(file).set_duration(v.duration).resize(height=h).set_pos(('right', 'top'))] *)
  logo_clip : string → clip → Z → result clip;
  (** [v.write_videofile(path, codec='libx264', audio_codec='aac', threads=8)] *)
  write_videofile : clip → string → result unit;
  (** [c.close()] *)
  close_clip : clip → result unit
}.

(** ** Timeline assembly *)

Module Assembly.
Section WithMoviePy.
Context `{MoviePy}.

(** The calls of [write_videofile] and of [main_clip.close()] the run
    makes, in order. *)
Inductive event : Type :=
  | EvWrite (final_video : clip) (output_path : string)
  | EvClose.

Definition create_text_clip (text : pyval) (duration : pyval) (video_size : Z * Z)
    (font_size_ratio : Z) (pos : position) : result clip :=
  let '(video_width, _) := video_size in
  if (font_size_ratio =? 0)%Z then Raise ZeroDivisionError
  else
    let font_size := video_width ÷ font_size_ratio in
    TextClip text font_size video_width pos duration.

(** [{cue['dialogue_index']: cue['content'] for cue in script_cues
      if cue['type'] == 'overlay'}] *)
Definition build_overlay_map (script_cues : list cue) : gmap Z string :=
  foldl (λ m c, if String.eqb (cue_type c) "overlay"
                then <[dialogue_index c := content c]> m else m)
        ∅ script_cues.

Section Run.
Variables (main_clip : clip) (overlay_map : gmap Z string).
Variables (b_roll_files : gmap string string)
          (b_roll_keyword_map : list (string * list string)).
Variables (add_subtitles add_b_roll add_overlays : bool).

(** The [if add_b_roll and b_roll_keyword_map:] block. *)
Definition b_roll_step (dialogue_text clip_duration : pyval) (current_clip : clip)
    : result clip :=
  if add_b_roll && negb (bool_decide (b_roll_keyword_map = [])) then
    matched_b_roll_path ← BRoll.match_b_roll b_roll_files b_roll_keyword_map dialogue_text;
    match matched_b_roll_path with
    | Some path =>
        if PyStr.truthy path then
          match (b_roll_clip ← VideoFileClip path;
                 fit_b_roll b_roll_clip clip_duration (clip_size main_clip).2 current_clip) with
          | Ok b_roll_clip => Ok b_roll_clip
          | Raise _ => Ok current_clip
          end
        else Ok current_clip
    | None => Ok current_clip
    end
  else Ok current_clip.

(** The subtitle and overlay layers stacked on [current_clip]. *)
Definition build_layers (i : nat) (dialogue_text clip_duration : pyval)
    (current_clip : clip) : list clip :=
  let layers := [current_clip] in
  let layers :=
    if add_subtitles then
      match create_text_clip dialogue_text clip_duration (clip_size main_clip) 40
                             (AnchorXY "center" "bottom") with
      | Ok t => layers ++ [t]
      | Raise _ => layers
      end
    else layers in
  if add_overlays then
    match overlay_map !! Z.of_nat i with
    | Some text =>
        match create_text_clip (PyStr text) clip_duration (clip_size main_clip) 25
                               (Anchor "center") with
        | Ok t => layers ++ [t]
        | Raise _ => layers
        end
    | None => layers
    end
  else layers.

(** The body of the [try] for cut number [i]; the result is [final_clips]
    after it. *)
Definition try_cut (final_clips : list clip) (i : nat) (cut : cut_entry)
    : result (list clip) :=
  start_time ← CutEntry.getitem cut "start";
  end_time ← CutEntry.getitem cut "end";
  dialogue_text ← CutEntry.getitem cut "text";
  later ← PyVal.gt end_time start_time;
  if later : bool then
    clip_duration ← PyVal.sub end_time start_time;
    current_clip ← subclip main_clip start_time end_time;
    current_clip ← b_roll_step dialogue_text clip_duration current_clip;
    let layers := build_layers i dialogue_text clip_duration current_clip in
    match CompositeVideoClip layers with
    | Ok composed => Ok (final_clips ++ [composed])
    | Raise _ => Ok (final_clips ++ [current_clip])
    end
  else Ok final_clips.

(** One iteration of [for i, cut in enumerate(cut_list)]: the [try], and
    its [except Exception] handler, which evaluates [cut.get('start',
    'unknown')] and [cut.get('end', 'unknown')] for its message before it
    goes on with the next cut. *)
Definition cut_loop_body (final_clips : list clip) (ic : nat * cut_entry)
    : result (list clip) :=
  match try_cut final_clips ic.1 ic.2 with
  | Ok final_clips' => Ok final_clips'
  | Raise _ =>
      _ ← CutEntry.get ic.2 "start" (PyStr "unknown");
      _ ← CutEntry.get ic.2 "end" (PyStr "unknown");
      Ok final_clips
  end.

(** [final_clips] after the first [n] cuts. *)
Definition clips_upto (cut_list : list cut_entry) (n : nat) : result (list clip) :=
  for_each cut_loop_body (take n (enumerate cut_list)) [].

Definition compose_segments (cut_list : list cut_entry) : result (list clip) :=
  for_each cut_loop_body (enumerate cut_list) [].

(** The iteration for cut number [k] appends exactly the segment [seg]. *)
Definition segment_of_cut (cut_list : list cut_entry) (k : nat)
    (seg : clip) : Prop :=
  ∃ final_clips, clips_upto cut_list k = Ok final_clips
                 ∧ clips_upto cut_list (S k) = Ok (final_clips ++ [seg]).

End Run.

Definition output_path : string := "CineAI_Final_Output.mp4".

(** The [if add_logo and logo_file:] block. *)
Definition logo_step (main_clip : clip) (logo_file : option string) (add_logo : bool)
    (final_video : clip) : clip :=
  if add_logo && path_truthy logo_file then
    match logo_file with
    | Some file =>
        match (logo ← logo_clip file final_video ((clip_size main_clip).2 ÷ 12);
               CompositeVideoClip [final_video; logo]) with
        | Ok with_logo => with_logo
        | Raise _ => final_video
        end
    | None => final_video
    end
  else final_video.

(** [main_clip.close(); return None] *)
Definition close_and_fail (main_clip : clip) : result (option string) :=
  _ ← close_clip main_clip; Ok None.

(** From the concatenation on: what is returned or raised, and the
    events. *)
Definition finish (main_clip : clip) (logo_file : option string) (add_logo : bool)
    (final_clips : list clip) : result (option string) * list event :=
  if bool_decide (final_clips = []) then (close_and_fail main_clip, [EvClose])
  else
    match concatenate_videoclips final_clips with
    | Raise _ => (close_and_fail main_clip, [EvClose])
    | Ok final_video =>
        let final_video := logo_step main_clip logo_file add_logo final_video in
        match write_videofile final_video output_path with
        | Ok _ =>
            match close_clip main_clip with
            | Ok _ =>
                (Ok (Some output_path), [EvWrite final_video output_path; EvClose])
            | Raise _ =>
                (close_and_fail main_clip,
                 [EvWrite final_video output_path; EvClose; EvClose])
            end
        | Raise _ =>
            (close_and_fail main_clip, [EvWrite final_video output_path; EvClose])
        end
    end.

Definition assemble_video (cut_list : list cut_entry)
    (original_video_path : string) (script_cues : list cue)
    (b_roll_files : gmap string string)
    (b_roll_keyword_map : list (string * list string))
    (logo_file : option string)
    (add_subtitles add_b_roll add_logo add_overlays : bool)
    : result (option string) * list event :=
  match VideoFileClip original_video_path with
  | Raise e => (Raise e, [])
  | Ok main_clip =>
      let overlay_map := build_overlay_map script_cues in
      match compose_segments main_clip overlay_map b_roll_files b_roll_keyword_map
                             add_subtitles add_b_roll add_overlays cut_list with
      | Raise e => (Raise e, [])
      | Ok final_clips => finish main_clip logo_file add_logo final_clips
      end
  end.

End WithMoviePy.
End Assembly.

(** ** A moviepy to run the model on *)

(** A description of the clip a call would build. *)
#[warnings="-register-all"] Inductive sym_clip : Type :=
  | SFile (path : string)
  | SSub (c : sym_clip) (start_time end_time : pyval)
  | SFit (b : sym_clip) (duration : pyval) (height : Z) (audio_of : sym_clip)
  | SText (text : pyval) (font_size width : Z) (pos : position) (duration : pyval)
  | SComposite (layers : list sym_clip)
  | SConcat (clips : list sym_clip)
  | SLogo (file : string) (height : Z).

(** Every call succeeds, except a [TextClip] whose text is not a string. *)
Definition symbolic_moviepy : MoviePy := {|
  clip := sym_clip;
  VideoFileClip path := Ok (SFile path);
  clip_size _ := (1920, 1080);
  subclip c s e := Ok (SSub c s e);
  fit_b_roll b d h a := Ok (SFit b d h a);
  TextClip t f w p d :=
    match t with
    | PyStr _ => Ok (SText t f w p d)
    | _ => Raise TypeError
    end;
  CompositeVideoClip layers := Ok (SComposite layers);
  concatenate_videoclips clips := Ok (SConcat clips);
  logo_clip file _ h := Ok (SLogo file h);
  write_videofile _ _ := Ok ();
  close_clip _ := Ok ()
|}.

(** The same, but no file can be opened. *)
Definition unreadable_moviepy : MoviePy := {|
  clip := sym_clip;
  VideoFileClip _ := Raise MediaError;
  clip_size _ := (1920, 1080);
  subclip c s e := Ok (SSub c s e);
  fit_b_roll b d h a := Ok (SFit b d h a);
  TextClip t f w p d := Ok (SText t f w p d);
  CompositeVideoClip layers := Ok (SComposite layers);
  concatenate_videoclips clips := Ok (SConcat clips);
  logo_clip file _ h := Ok (SLogo file h);
  write_videofile _ _ := Ok ();
  close_clip _ := Ok ()
|}.

(** The cut [{'start': ..., 'end': ..., 'text': ...}]. *)
Definition cut_of (start_time end_time text : pyval) : gmap string pyval :=
  <["start" := start_time]> (<["end" := end_time]> {["text" := text]}).

(** The subtitle and the overlay layer of cut number [i], as
    [build_layers] asks for them. *)
Definition subtitle_clip `{MoviePy} (main_clip : clip)
    (dialogue_text clip_duration : pyval) : result clip :=
  Assembly.create_text_clip dialogue_text clip_duration (clip_size main_clip) 40
                            (AnchorXY "center" "bottom").

Definition overlay_clip `{MoviePy} (main_clip : clip) (text : string)
    (clip_duration : pyval) : result clip :=
  Assembly.create_text_clip (PyStr text) clip_duration (clip_size main_clip) 25
                            (Anchor "center").

(** ** The caller, [app.py] *)

Module App.

(** [s.split(sep)] for a one-character separator. *)
Fixpoint split_on (sep : ascii) (s : string) : list string :=
  match s with
  | EmptyString => [EmptyString]
  | String c s' =>
      if Ascii.eqb c sep then EmptyString :: split_on sep s'
      else match split_on sep s' with
           | [] => [String c EmptyString]
           | l :: ls => String c l :: ls
           end
  end.

(** [[k.strip().lower() for k in keywords.split(',')]] *)
Definition keyword_list (keywords : string) : list string :=
  (λ k, PyStr.lower (PyStr.strip k)) <$> split_on ","%char keywords.

(** [[cue['content'] for cue in script_cues if cue['type'] == 'dialogue']] *)
Definition perfect_sentences (script_cues : list cue) : list string :=
  content <$> filter (λ c, cue_type c = "dialogue") script_cues.

(** [s.find(c)] for a one-character [c]: the first position, or -1. *)
Fixpoint find_char (c : ascii) (s : string) : Z :=
  match s with
  | EmptyString => -1
  | String a s' =>
      if Ascii.eqb a c then 0
      else let r := find_char c s' in if (r <? 0)%Z then -1 else r + 1
  end.

(** [s.rfind(c)] for a one-character [c]: the last position, or -1. *)
Fixpoint rfind_char (c : ascii) (s : string) : Z :=
  match s with
  | EmptyString => -1
  | String a s' =>
      let r := rfind_char c s' in
      if (0 <=? r)%Z then r + 1 else if Ascii.eqb a c then 0 else -1
  end.

(** How a slice bound is read against a string of length [len]. *)
Definition slice_bound (len x : Z) : Z :=
  if (x <? 0)%Z then Z.max (x + len) 0 else Z.min x len.

(** [s[a:b]] *)
Definition slice (s : string) (a b : Z) : string :=
  let len := Z.of_nat (String.length s) in
  let lo := slice_bound len a in
  let hi := slice_bound len b in
  String.substring (Z.to_nat lo) (Z.to_nat (hi - lo)) s.

(** The text handed to [json.loads]:
    [ai_response[ai_response.find('[') : ai_response.rfind(']') + 1]] *)
Definition json_string (ai_response : string) : string :=
  let start_index := find_char "["%char ai_response in
  let end_index := rfind_char "]"%char ai_response in
  slice ai_response start_index (end_index + 1).

End App.

(** Number of occurrences of a character. *)
Fixpoint count_char (c : ascii) (s : string) : nat :=
  match s with
  | EmptyString => 0
  | String a s' => ((if Ascii.eqb a c then 1 else 0) + count_char c s')%nat
  end.

(** ** Transcription *)

(** [d[key]] on a dict with values of any one type. *)
Definition dict_getitem {V : Type} (d : gmap string V) (key : string) : result V :=
  match d !! key with
  | Some v => Ok v
  | None => Raise KeyError
  end.

(** The calls into whisper. What [transcribe] returns is a dict whose
    ["segments"] entry lists dicts whose ["words"] entry lists the word
    dicts. *)
Class WhisperLib : Type := {
  whisper_model : Type;
  (** [whisper.load_model(name)] *)
  load_model : string → result whisper_model;
  (** [model.transcribe(audio_path, word_timestamps=True)] *)
  transcribe :
    whisper_model → string →
    result (gmap string (list (gmap string (list (gmap string pyval)))))
}.

Module Transcription.
Section WithWhisper.
Context `{WhisperLib}.

(** The dict appended for one word. *)
Definition word_entry (word_info : gmap string pyval) : result (gmap string pyval) :=
  text ← dict_getitem word_info "word";
  start_time ← dict_getitem word_info "start";
  end_time ← dict_getitem word_info "end";
  Ok (<["text" := text]> (<["start" := start_time]> {["end" := end_time]})).

(** [for word_info in segment["words"]] *)
Definition segment_body (words_with_timestamps : list (gmap string pyval))
    (segment : gmap string (list (gmap string pyval)))
    : result (list (gmap string pyval)) :=
  words ← dict_getitem segment "words";
  for_each (λ acc word_info, entry ← word_entry word_info; Ok (acc ++ [entry]))
           words words_with_timestamps.

(** The body of the [try]. *)
Definition try_transcribe (audio_path model_name : string)
    : result (list (gmap string pyval)) :=
  model ← load_model model_name;
  transcription ← transcribe model audio_path;
  segments ← dict_getitem transcription "segments";
  for_each segment_body segments [].

Definition transcribe_audio_with_whisper (audio_path model_name : string)
    : option (list (gmap string pyval)) :=
  match try_transcribe audio_path model_name with
  | Ok words_with_timestamps => Some words_with_timestamps
  | Raise _ => None
  end.

End WithWhisper.
End Transcription.

(** A whisper whose model loads and whose transcription is [tr]. *)
Definition fixed_whisper
    (tr : gmap string (list (gmap string (list (gmap string pyval))))) : WhisperLib := {|
  whisper_model := unit;
  load_model _ := Ok ();
  transcribe _ _ := Ok tr
|}.

(** The word dict [{'word': w, 'start': s, 'end': e}]. *)
Definition word_of (w : string) (s e : Q) : gmap string pyval :=
  <["word" := PyStr w]> (<["start" := PyNum s]> {["end" := PyNum e]}).

(** * Properties *)

Ltac weaken_bound H :=
  eapply Forall_impl; [exact H | intros ? ?; cbn beta in *; lia].


(** ** Generic facts about loops and enumeration *)

Section Loops.
Context {A S : Type}.
Implicit Types (body : S → A → result S) (xs ys : list A) (st : S).

Lemma for_each_app body xs ys st :
  for_each body (xs ++ ys) st = (st' ← for_each body xs st; for_each body ys st').
Proof.
  revert st. induction xs as [|x xs IH]; intros st; simpl; [done|].
  destruct (body st x) as [st1|e]; simpl; [apply IH | done].
Qed.

Lemma for_each_snoc body xs x st :
  for_each body (xs ++ [x]) st = (st' ← for_each body xs st; body st' x).
Proof.
  rewrite for_each_app. destruct (for_each body xs st) as [st1|e]; simpl; [|done].
  destruct (body st1 x); done.
Qed.

Lemma for_each_total body xs st :
  (∀ st x, x ∈ xs → ∃ st', body st x = Ok st') →
  ∃ st', for_each body xs st = Ok st'.
Proof.
  revert st. induction xs as [|x xs IH]; intros st Hbody; simpl; [eauto|].
  destruct (Hbody st x) as [st1 ->]; [left|]. simpl.
  apply IH. intros st2 y Hy. apply Hbody. by right.
Qed.
End Loops.

Lemma enumerate_from_lookup {A} (xs : list A) i k :
  enumerate_from i xs !! k = (λ x, ((i + k)%nat, x)) <$> xs !! k.
Proof.
  revert i k. induction xs as [|x xs IH]; intros i k; [done|].
  destruct k as [|k]; simpl.
  - by rewrite Nat.add_0_r.
  - rewrite IH. by replace (S i + k)%nat with (i + S k)%nat by lia.
Qed.

Lemma enumerate_lookup {A} (xs : list A) k :
  enumerate xs !! k = (λ x, (k, x)) <$> xs !! k.
Proof. unfold enumerate. by rewrite enumerate_from_lookup. Qed.

Lemma enumerate_from_length {A} (xs : list A) i :
  length (enumerate_from i xs) = length xs.
Proof. revert i. induction xs; intros; simpl; [done | by f_equal]. Qed.

Lemma enumerate_elem {A} (xs : list A) k x :
  (k, x) ∈ enumerate xs → xs !! k = Some x.
Proof.
  intros [j Hj]%list_elem_of_lookup. rewrite enumerate_lookup in Hj.
  destruct (xs !! j) as [y|] eqn:E; simplify_eq/=. done.
Qed.

Lemma increasing_snoc ns n :
  increasing ns → Forall (λ m, (m < n)%nat) ns → increasing (ns ++ [n]).
Proof.
  unfold increasing. induction 1 as [|m ns Hs IH Hm]; intros Hall; simpl.
  - repeat constructor.
  - inversion Hall; subst. constructor; [by apply IH|].
    apply Forall_app; split; [done|]. by constructor.
Qed.

Lemma py_index_at (xs : list nat) k x :
  NoDup xs → xs !! k = Some x → py_index x xs = Ok k.
Proof.
  revert k. induction xs as [|y xs IH]; intros k Hnd Hk; [done|].
  inversion Hnd as [|? ? Hy Hnd']; subst. destruct k as [|k]; simpl in *.
  - simplify_eq. by rewrite Nat.eqb_refl.
  - destruct (Nat.eqb_spec y x) as [->|_].
    + exfalso. apply Hy. by eapply list_elem_of_lookup_2.
    + by rewrite (IH k).
Qed.

Lemma increasing_NoDup ns : increasing ns → NoDup ns.
Proof.
  induction 1 as [|m ns Hs IH Hm]; constructor; [|done].
  intros Hin. rewrite Forall_forall in Hm. specialize (Hm _ Hin). lia.
Qed.

(** ** The dialogue-marker lines *)

Lemma dialogue_indices_shape (pre xs : list string) :
  (filter (λ il : nat * string, Parser.clean il.2 = "dialogue:")
          (enumerate_from (length pre) xs)).*1
  = filter (λ j, Parser.clean <$> (pre ++ xs) !! j = Some "dialogue:")
           (seq (length pre) (length xs)).
Proof.
  revert pre. induction xs as [|x xs IH]; intros pre; [done|].
  cbn [enumerate_from length seq].
  assert (Hx : (pre ++ x :: xs) !! length pre = Some x)
    by (by rewrite lookup_app_r, Nat.sub_diag by lia).
  specialize (IH (pre ++ [x])). rewrite length_app, <- app_assoc in IH.
  simpl in IH. replace (length pre + 1)%nat with (S (length pre)) in IH by lia.
  rewrite (filter_cons _ (length pre, x)), (filter_cons _ (length pre)), Hx.
  cbn [snd fmap option_fmap option_map].
  destruct (decide (Parser.clean x = "dialogue:")) as [Hc|Hc].
  - rewrite decide_True by (by rewrite Hc). rewrite fmap_cons. by rewrite IH.
  - rewrite decide_False by (intros [=]; done). done.
Qed.

Lemma dialogue_indices_spec lines :
  Parser.dialogue_indices_of lines = spec_dialogue_marker_lines lines.
Proof. exact (dialogue_indices_shape [] lines). Qed.

Lemma filter_seq_increasing (P : nat → Prop) `{!∀ j, Decision (P j)} i n :
  increasing (filter P (seq i n)) ∧ Forall (λ j, (i ≤ j)%nat) (filter P (seq i n)).
Proof.
  revert i. induction n as [|n IH]; intros i; simpl.
  - split; constructor.
  - destruct (IH (S i)) as [Hs Hge]. rewrite filter_cons.
    assert (Hge' : Forall (λ j, (i < j)%nat) (filter P (seq (S i) n)))
      by (eapply Forall_impl; [exact Hge | simpl; lia]).
    destruct (decide (P i)).
    + split; [by constructor|]. constructor; [lia|].
      eapply Forall_impl; [exact Hge' | simpl; lia].
    + split; [done|]. eapply Forall_impl; [exact Hge' | simpl; lia].
Qed.

Lemma dialogue_indices_increasing lines :
  increasing (Parser.dialogue_indices_of lines).
Proof. rewrite dialogue_indices_spec. apply filter_seq_increasing. Qed.

Lemma marker_line_elem lines j :
  j ∈ spec_dialogue_marker_lines lines ↔
  ∃ line, lines !! j = Some line ∧ Parser.clean line = "dialogue:".
Proof.
  unfold spec_dialogue_marker_lines. rewrite list_elem_of_filter, elem_of_seq.
  split.
  - intros [Hc _]. destruct (lines !! j) as [line|]; simplify_eq/=. eauto.
  - intros (line & Hl & Hc). rewrite Hl. simpl. split; [by rewrite Hc|].
    apply lookup_lt_Some in Hl. lia.
Qed.

Lemma last_dialogue_index_loop_run (dis pre suf : list nat) i (last0 : Z) :
  increasing dis → dis = pre ++ suf →
  last0 = Z.of_nat (length (filter (λ j, (j < i)%nat) pre)) - 1 →
  for_each
    (λ (last_dialogue_index : Z) (idx_dialogue_line : nat),
       if (idx_dialogue_line <? i)%nat
       then k ← py_index idx_dialogue_line dis; Ok (Z.of_nat k)
       else Ok last_dialogue_index) suf last0
  = Ok (Z.of_nat (length (filter (λ j, (j < i)%nat) dis)) - 1).
Proof.
  intros Hinc. revert pre last0.
  induction suf as [|x suf IH]; intros pre last0 Hdis Hlast.
  - rewrite app_nil_r in Hdis. subst. done.
  - cbn [for_each].
    assert (Hx : dis !! length pre = Some x)
      by (subst dis; by rewrite lookup_app_r, Nat.sub_diag by lia).
    assert (Hdis' : dis = (pre ++ [x]) ++ suf) by (by rewrite <- app_assoc).
    destruct (Nat.ltb_spec x i) as [Hlt|Hge].
    + rewrite (py_index_at dis (length pre) x (increasing_NoDup _ Hinc) Hx). simpl.
      apply (IH (pre ++ [x])); [done|].
      rewrite filter_app, filter_cons_True, filter_nil by done.
      assert (Hpre : filter (λ j, (j < i)%nat) pre = pre).
      { assert (Hall : Forall (λ j, (j < x)%nat) pre).
        { rewrite Hdis in Hinc. unfold increasing in Hinc.
          clear -Hinc. induction pre as [|p pre IHp]; [constructor|].
          simpl in Hinc. inversion Hinc as [|? ? Hs Hp]; subst.
          constructor; [|by apply IHp].
          rewrite Forall_forall in Hp. apply Hp. set_solver. }
        clear -Hall Hlt. induction pre as [|p pre IHp]; [done|].
        inversion Hall; subst. rewrite filter_cons_True by lia. f_equal. auto. }
      rewrite Hpre, length_app. simpl. lia.
    + simpl. apply (IH (pre ++ [x])); [done|].
      rewrite filter_app, filter_cons_False, filter_nil by lia.
      by rewrite app_nil_r.
Qed.

Lemma last_dialogue_index_loop_value lines i :
  Parser.last_dialogue_index_loop (Parser.dialogue_indices_of lines) i
  = Ok (Z.of_nat (markers_before lines i) - 1).
Proof.
  unfold Parser.last_dialogue_index_loop, markers_before.
  rewrite <- dialogue_indices_spec.
  apply (last_dialogue_index_loop_run _ []);
    [apply dialogue_indices_increasing | done | done].
Qed.

Lemma last_below_rank (ms : list nat) i :
  increasing ms →
  match last (filter (λ j, (j < i)%nat) ms) with
  | Some j => (length (filter (λ k, (k < j)%nat) ms) + 1
               = length (filter (λ j, (j < i)%nat) ms))%nat
  | None => length (filter (λ j, (j < i)%nat) ms) = 0%nat
  end.
Proof.
  induction 1 as [|x ms Hs IH Hx].
  - done.
  - rewrite Forall_forall in Hx. rewrite (filter_cons (λ j, (j < i)%nat)).
    destruct (decide (x < i)%nat) as [Hlt|Hge].
    + destruct (filter (λ j, (j < i)%nat) ms) as [|y ys] eqn:E.
      * simpl. rewrite filter_cons_False by lia.
        replace (filter (λ k, (k < x)%nat) ms) with (@nil nat); [done|].
        symmetry. clear -Hx. induction ms as [|m ms IHm]; [done|].
        rewrite filter_cons_False; [apply IHm; intros; apply Hx; set_solver|].
        assert (x < m)%nat by (apply Hx; set_solver). lia.
      * rewrite last_cons_cons. destruct (last (y :: ys)) as [j|] eqn:El; [|done].
        assert (Hj : j ∈ ms).
        { apply last_Some in El as [l' El]. 
          assert (j ∈ filter (λ j, (j < i)%nat) ms) by (rewrite E, El; set_solver).
          by apply list_elem_of_filter in H as [_ ?]. }
        apply Hx in Hj. rewrite filter_cons_True by lia. simpl in *. lia.
    + destruct (last (filter (λ j, (j < i)%nat) ms)) as [j|] eqn:El; [|done].
      assert (Hj : (j < i)%nat).
      { apply last_Some in El as [l' El].
        assert (j ∈ filter (λ j, (j < i)%nat) ms) by (rewrite El; set_solver).
        by apply list_elem_of_filter in H as [? _]. }
      rewrite filter_cons_False by lia. done.
Qed.

Lemma spec_dialogue_link_value lines i :
  spec_dialogue_link lines i = Z.of_nat (markers_before lines i) - 1.
Proof.
  unfold spec_dialogue_link, spec_rank, markers_before.
  pose proof (last_below_rank (spec_dialogue_marker_lines lines) i
                (proj1 (filter_seq_increasing _ _ _))) as Hl.
  destruct (last _); lia.
Qed.

(** ** One iteration of the parser's loop *)

Lemma loop_body_run lines st i line :
  lines !! i = Some line →
  Parser.loop_body lines (Parser.dialogue_indices_of lines) st (i, line)
  = Ok (after_emission st (emission lines st.1 i)).
Proof.
  intros Hline. destruct st as [dc cues].
  unfold Parser.loop_body, emission. rewrite Hline. cbn [mbind option_bind fst snd].
  destruct (str_in (Parser.clean line) Parser.markers); [|done].
  destruct (Nat.ltb_spec (i + 1) (length lines)) as [Hlt|Hge].
  - destruct (lookup_lt_is_Some_2 lines (i + 1)%nat Hlt) as [nxt Hnxt].
    unfold py_getitem. rewrite Hnxt. cbn [mbind result_bind option_bind].
    destruct (PyStr.truthy (PyStr.strip nxt)); [|done].
    destruct (String.eqb _ "dialogue") eqn:Ety.
    + simpl. by rewrite Ety.
    + rewrite last_dialogue_index_loop_value. simpl. by rewrite Ety.
  - by rewrite (lookup_ge_None_2 lines (i + 1)%nat) by lia.
Qed.

Lemma loop_upto_step lines n :
  Parser.loop_upto lines (S n)
  = match lines !! n with
    | Some line =>
        st ← Parser.loop_upto lines n;
        Ok (after_emission st (emission lines st.1 n))
    | None => Parser.loop_upto lines n
    end.
Proof.
  unfold Parser.loop_upto. destruct (lines !! n) as [line|] eqn:Hline.
  - rewrite (take_S_r _ _ (n, line)) by (by rewrite enumerate_lookup, Hline).
    rewrite for_each_snoc. destruct (for_each _ _ _) as [st|e]; [|done].
    simpl. by apply loop_body_run.
  - apply lookup_ge_None in Hline.
    rewrite !take_ge; [done | |]; unfold enumerate;
      rewrite enumerate_from_length; lia.
Qed.

Lemma loop_upto_length lines :
  Parser.loop_upto lines (length lines) = Parser.parse_lines lines.
Proof.
  unfold Parser.loop_upto, Parser.parse_lines.
  rewrite take_ge; [done|]. unfold enumerate. by rewrite enumerate_from_length.
Qed.

Lemma loop_upto_total lines n : ∃ st, Parser.loop_upto lines n = Ok st.
Proof.
  induction n as [|n [st IH]]; [by eexists|].
  rewrite loop_upto_step, IH. destruct (lines !! n); simpl; eauto.
Qed.

Lemma parse_lines_total lines : ∃ st, Parser.parse_lines lines = Ok st.
Proof. rewrite <- loop_upto_length. apply loop_upto_total. Qed.

Lemma marker_cases x :
  str_in x Parser.markers = true →
  x = "dialogue:" ∨ x = "b-roll:" ∨ x = "overlay:".
Proof.
  unfold str_in, Parser.markers. cbn [existsb].
  rewrite !orb_true_iff, !String.eqb_eq. intros [?|[?|[?|[=]]]]; auto.
Qed.

Lemma dialogue_type_iff x :
  str_in x Parser.markers = true →
  String.eqb (PyStr.remove_colons x) "dialogue" = true ↔ x = "dialogue:".
Proof.
  intros [->| [->| ->]]%marker_cases; vm_compute; split; congruence.
Qed.

(** ** Counting dialogue markers *)

Lemma filter_lt_seq n len :
  filter (λ j, (j < n)%nat) (seq 0 len) = seq 0 (n `min` len).
Proof.
  induction len as [|len IH]; [by rewrite Nat.min_0_r|].
  rewrite seq_S, filter_app, IH. simpl.
  destruct (decide (len < n)%nat).
  - rewrite filter_cons_True, filter_nil by done.
    replace (n `min` S len)%nat with (S len) by lia.
    replace (n `min` len)%nat with len by lia. by rewrite seq_S.
  - rewrite filter_cons_False, filter_nil, app_nil_r by done. f_equal. lia.
Qed.

Lemma markers_before_seq lines n :
  markers_before lines n
  = length (filter (λ j, Parser.clean <$> lines !! j = Some "dialogue:")
                   (seq 0 (n `min` length lines))).
Proof.
  unfold markers_before, spec_dialogue_marker_lines.
  rewrite list_filter_filter, <- filter_lt_seq, list_filter_filter.
  f_equal. apply list_filter_iff. intros j. tauto.
Qed.

Lemma markers_before_0 lines : markers_before lines 0 = 0%nat.
Proof. by rewrite markers_before_seq. Qed.

Lemma markers_before_S lines n line :
  lines !! n = Some line →
  markers_before lines (S n)
  = (markers_before lines n
     + if decide (Parser.clean line = "dialogue:") then 1 else 0)%nat.
Proof.
  intros Hline. pose proof (lookup_lt_Some _ _ _ Hline) as Hlt.
  rewrite !markers_before_seq.
  replace (S n `min` length lines)%nat with (S n) by lia.
  replace (n `min` length lines)%nat with n by lia.
  rewrite seq_S, filter_app, length_app. f_equal. simpl.
  rewrite filter_cons, filter_nil, Hline. simpl.
  destruct (decide (Parser.clean line = "dialogue:")) as [Hc|Hc].
  - by rewrite decide_True by (by rewrite Hc).
  - by rewrite decide_False by (intros [=]; done).
Qed.

Lemma markers_before_all lines n :
  (length lines ≤ n)%nat →
  markers_before lines n = length (spec_dialogue_marker_lines lines).
Proof.
  intros Hn. rewrite markers_before_seq.
  by replace (n `min` length lines)%nat with (length lines) by lia.
Qed.

Lemma count_dialogue_lines (xs : list string) i :
  length (filter (λ il : nat * string, Parser.clean il.2 = "dialogue:")
                 (enumerate_from i xs))
  = length (filter (λ l, Parser.clean l = "dialogue:") xs).
Proof.
  revert i. induction xs as [|x xs IH]; intros i; [done|].
  cbn [enumerate_from]. rewrite (filter_cons _ (i, x)), (filter_cons _ x). simpl.
  destruct (decide (Parser.clean x = "dialogue:")); simpl; by rewrite IH.
Qed.

Lemma marker_lines_count lines :
  length (spec_dialogue_marker_lines lines)
  = length (filter (λ l, Parser.clean l = "dialogue:") lines).
Proof.
  rewrite <- dialogue_indices_spec. unfold Parser.dialogue_indices_of.
  rewrite length_fmap. apply count_dialogue_lines.
Qed.

(** ** Invariants of the parser's loop *)

Lemma emission_Some lines dc i c :
  emission lines dc i = Some c →
  ∃ line nxt,
    lines !! i = Some line ∧ str_in (Parser.clean line) Parser.markers = true ∧
    lines !! (i + 1)%nat = Some nxt ∧ PyStr.truthy (PyStr.strip nxt) = true ∧
    cue_type c = PyStr.remove_colons (Parser.clean line) ∧
    content c = PyStr.strip nxt ∧
    dialogue_index c = (if String.eqb (cue_type c) "dialogue" then dc
                        else Z.of_nat (markers_before lines i) - 1).
Proof.
  unfold emission. intros He.
  destruct (lines !! i) as [line|]; [|done]. cbn [mbind option_bind] in He.
  destruct (str_in _ _) eqn:Hm; [|done].
  destruct (lines !! (i + 1)%nat) as [nxt|]; [|done]. cbn [mbind option_bind] in He.
  destruct (PyStr.truthy _) eqn:Ht; [|done].
  injection He as <-. exists line, nxt. by repeat split.
Qed.

Lemma emission_dialogue lines dc i line nxt :
  lines !! i = Some line → Parser.clean line = "dialogue:" →
  lines !! (i + 1)%nat = Some nxt → PyStr.strip nxt ≠ "" →
  emission lines dc i = Some (Cue "dialogue" (PyStr.strip nxt) dc).
Proof.
  intros Hl Hc Hn Hs. unfold emission. rewrite Hl. cbn [mbind option_bind].
  rewrite Hc, Hn. cbn [mbind option_bind].
  destruct (PyStr.strip nxt) eqn:E; [done|]. reflexivity.
Qed.

Lemma emission_marker_without_content lines dc i line :
  lines !! i = Some line →
  (S i = length lines ∨ ∃ nxt, lines !! S i = Some nxt ∧ PyStr.strip nxt = "") →
  emission lines dc i = None.
Proof.
  intros Hl Hn. unfold emission. rewrite Hl. cbn [mbind option_bind].
  destruct (str_in _ _); [|done].
  replace (i + 1)%nat with (S i) by lia.
  destruct Hn as [Hlast|(nxt & Hn & Hs)].
  - by rewrite (lookup_ge_None_2 lines (S i)) by lia.
  - rewrite Hn. cbn [mbind option_bind]. by rewrite Hs.
Qed.

Lemma seq_Z_snoc (dc : Z) :
  (0 ≤ dc)%Z →
  Z.of_nat <$> seq 0 (Z.to_nat (dc + 1)) = (Z.of_nat <$> seq 0 (Z.to_nat dc)) ++ [dc].
Proof.
  intros Hdc. replace (Z.to_nat (dc + 1)) with (S (Z.to_nat dc)) by lia.
  rewrite seq_S, fmap_app. simpl. f_equal. f_equal. lia.
Qed.

Lemma loop_invariant lines n st :
  Parser.loop_upto lines n = Ok st →
  (0 ≤ st.1)%Z ∧
  dialogue_index <$> filter (λ c, cue_type c = "dialogue") st.2
    = Z.of_nat <$> seq 0 (Z.to_nat st.1) ∧
  (st.1 ≤ Z.of_nat (markers_before lines n))%Z ∧
  (dialogue_markers_have_content lines → st.1 = Z.of_nat (markers_before lines n)).
Proof.
  revert st. induction n as [|n IH]; intros st Hrun.
  - injection Hrun as <-. rewrite markers_before_0. simpl. repeat split; done.
  - rewrite loop_upto_step in Hrun.
    destruct (lines !! n) as [line|] eqn:Hline.
    + destruct (Parser.loop_upto lines n) as [st0|] eqn:H0; [|done].
      simpl in Hrun. injection Hrun as <-.
      destruct (IH st0 eq_refl) as (Hpos & Hidx & Hle & Heq).
      rewrite (markers_before_S lines n line Hline).
      destruct (emission lines st0.1 n) as [c|] eqn:He.
      * apply emission_Some in He
          as (line' & nxt & Hl' & Hm & Hn & Ht & Hty & Hco & Hdi).
        rewrite Hline in Hl'. injection Hl' as <-.
        unfold after_emission. cbn [fst snd].
        rewrite filter_app, filter_cons, filter_nil.
        destruct (String.eqb (cue_type c) "dialogue") eqn:Ed.
        -- assert (Hc : Parser.clean line = "dialogue:")
             by (apply dialogue_type_iff; [done | by rewrite <- Hty]).
           rewrite decide_True by (by apply String.eqb_eq).
           rewrite decide_True by done.
           rewrite fmap_app, Hidx, seq_Z_snoc by done. simpl. rewrite Hdi.
           split; [lia|]. split; [done|]. split; [lia|].
           intros Hall. specialize (Heq Hall). lia.
        -- assert (Hc : Parser.clean line ≠ "dialogue:").
           { intros Hc. apply (dialogue_type_iff _ Hm) in Hc.
             rewrite <- Hty in Hc. congruence. }
           rewrite decide_False by (by apply String.eqb_neq).
           rewrite decide_False by done. rewrite app_nil_r.
           split; [lia|]. split; [done|]. split; [lia|].
           intros Hall. specialize (Heq Hall). lia.
      * unfold after_emission.
        split; [lia|]. split; [done|]. split.
        -- destruct (decide _); lia.
        -- intros Hall. specialize (Heq Hall).
           destruct (decide (Parser.clean line = "dialogue:")) as [Hc|Hc]; [|lia].
           destruct (Hall n line Hline Hc) as (nxt & Hn & Hs).
           by rewrite (emission_dialogue lines _ n line nxt) in He.
    + destruct (IH st Hrun) as (Hpos & Hidx & Hle & Heq).
      apply lookup_ge_None in Hline.
      rewrite (markers_before_all lines (S n)) by lia.
      rewrite (markers_before_all lines n) in Hle, Heq by lia. done.
Qed.

Lemma emitted_at_inv lines n c :
  Parser.emitted_at lines n c →
  ∃ st, Parser.loop_upto lines n = Ok st ∧ emission lines st.1 n = Some c.
Proof.
  intros (st & st' & H0 & H1 & Hc). exists st. split; [done|].
  rewrite loop_upto_step, H0 in H1.
  assert (Hlen : ∀ l : list cue, l ≠ l ++ [c]).
  { intros l Hl. apply (f_equal length) in Hl. rewrite length_app in Hl.
    simpl in Hl. lia. }
  destruct (lines !! n) as [line|].
  - simpl in H1. injection H1 as <-.
    destruct (emission lines st.1 n) as [c'|]; simpl in Hc.
    + apply app_inv_head in Hc. by injection Hc as ->.
    + by apply Hlen in Hc.
  - injection H1 as <-. by apply Hlen in Hc.
Qed.

Lemma loop_trace lines n st :
  Parser.loop_upto lines n = Ok st →
  ∃ ns, increasing ns ∧ Forall (λ m, (m < n)%nat) ns
        ∧ Forall2 (Parser.emitted_at lines) ns st.2.
Proof.
  revert st. induction n as [|n IH]; intros st Hrun.
  - injection Hrun as <-. exists []. repeat split; constructor.
  - pose proof Hrun as Hrun'. rewrite loop_upto_step in Hrun.
    destruct (Parser.loop_upto lines n) as [st0|] eqn:H0;
      [|by destruct (lines !! n)].
    destruct (IH st0 eq_refl) as (ns & Hinc & Hlt & Hem).
    assert (Hlt' : Forall (λ m, (m < S n)%nat) ns)
      by (eapply Forall_impl; [exact Hlt | simpl; lia]).
    destruct (lines !! n) as [line|]; [|injection Hrun as <-; eauto].
    simpl in Hrun. injection Hrun as <-.
    destruct (emission lines st0.1 n) as [c|] eqn:He; [|simpl; eauto].
    exists (ns ++ [n]). split; [by apply increasing_snoc|]. split.
    + apply Forall_app. split; [done|]. constructor; [lia | constructor].
    + simpl. apply Forall2_app; [done|]. constructor; [|constructor].
      exists st0, (after_emission st0 (Some c)).
      rewrite <- He at 1. rewrite Hrun'. by rewrite He.
Qed.

(** ** The cue parser: stated properties *)

Lemma parse_unfold text :
  Parser.parse_structured_script text
  = (st ← Parser.loop_upto (PyStr.split_lines text)
                           (length (PyStr.split_lines text)); Ok st.2).
Proof. by rewrite loop_upto_length. Qed.

Example parse_design_example :
  Parser.parse_structured_script
    ("dialogue:" +:+ nl +:+ "Hello world" +:+ nl +:+ "b-roll:" +:+ nl +:+ "[office shot]"
       +:+ nl +:+ "dialogue:" +:+ nl +:+ "Goodbye")
  = Ok [Cue "dialogue" "Hello world" 0; Cue "b-roll" "[office shot]" 0;
        Cue "dialogue" "Goodbye" 1].
Proof. vm_compute. reflexivity. Qed.

Example parse_empty_text : Parser.parse_structured_script "" = Ok [].
Proof. reflexivity. Qed.

(** C1. When the text has N dialogue-marker lines and each of them is
    followed by a line that is not empty after trimming, the parser returns
    a cue list holding exactly N cues of type dialogue, and their
    [dialogue_index] values are 0, 1, ..., N-1 in document order. *)
Theorem dialogue_cues_numbered (text : string) :
  let lines := PyStr.split_lines text in
  let N := length (filter (λ l, Parser.clean l = "dialogue:") lines) in
  dialogue_markers_have_content lines →
  ∃ cues, Parser.parse_structured_script text = Ok cues
    ∧ length (filter (λ c, cue_type c = "dialogue") cues) = N
    ∧ dialogue_index <$> filter (λ c, cue_type c = "dialogue") cues
      = Z.of_nat <$> seq 0 N.
Proof.
  intros lines N Hall. rewrite parse_unfold. fold lines.
  destruct (loop_upto_total lines (length lines)) as [st Hst]. rewrite Hst.
  exists st.2. split; [done|].
  destruct (loop_invariant lines _ st Hst) as (Hpos & Hidx & _ & Heq).
  specialize (Heq Hall). rewrite markers_before_all, marker_lines_count in Heq by done.
  fold N in Heq. rewrite Heq, Nat2Z.id in Hidx. split; [|done].
  apply (f_equal length) in Hidx. by rewrite !length_fmap, length_seq in Hidx.
Qed.

Lemma dialogue_cues_numbered_witness :
  ∃ cues, Parser.parse_structured_script ("dialogue:" +:+ nl +:+ "Hello world") = Ok cues
    ∧ length (filter (λ c, cue_type c = "dialogue") cues) = 1%nat
    ∧ dialogue_index <$> filter (λ c, cue_type c = "dialogue") cues = [0].
Proof.
  apply (dialogue_cues_numbered ("dialogue:" +:+ nl +:+ "Hello world")).
  intros i line Hi Hc. destruct i as [|[|i]]; simpl in Hi.
  - exists "Hello world". split; [reflexivity | discriminate].
  - injection Hi as <-. vm_compute in Hc. discriminate.
  - discriminate.
Defined.

(** C6. A b-roll or overlay cue appended by the iteration for line [n]
    carries, as [dialogue_index], the rank among the dialogue-marker lines
    of the last dialogue-marker line strictly before [n], and -1 when there
    is none; and the returned cue list is exactly the cues appended by the
    iterations, in line order. *)
Theorem non_dialogue_link (text : string) :
  let lines := PyStr.split_lines text in
  (∀ n c, Parser.emitted_at lines n c → cue_type c ≠ "dialogue" →
          dialogue_index c = spec_dialogue_link lines n)
  ∧ ∃ cues ns, Parser.parse_structured_script text = Ok cues
      ∧ increasing ns ∧ Forall2 (Parser.emitted_at lines) ns cues.
Proof.
  intros lines. split.
  - intros n c (st & Hst & He)%emitted_at_inv Hty.
    apply emission_Some in He as (line & nxt & Hl & Hm & Hn & Ht & Hty' & Hco & Hdi).
    rewrite Hdi, spec_dialogue_link_value.
    destruct (String.eqb_spec (cue_type c) "dialogue"); done.
  - rewrite parse_unfold. fold lines.
    destruct (loop_upto_total lines (length lines)) as [st Hst]. rewrite Hst.
    destruct (loop_trace lines _ st Hst) as (ns & Hinc & _ & Hem).
    by exists st.2, ns.
Qed.

Lemma non_dialogue_link_witness :
  dialogue_index (Cue "overlay" "X" 0)
  = spec_dialogue_link ["dialogue:"; "Hello"; "overlay:"; "X"] 2.
Proof.
  apply (proj1 (non_dialogue_link
                  ("dialogue:" +:+ nl +:+ "Hello" +:+ nl +:+ "overlay:" +:+ nl +:+ "X"))).
  - eexists _, _. split; [|split]; [vm_compute; reflexivity ..].
  - simpl. discriminate.
Defined.

(** C7, on the input where it fails. Two dialogue markers without content
    come before an overlay cue: the overlay is linked to rank 1, and the
    dialogue cue that follows it is numbered 0. *)
Theorem link_exceeds_next_dialogue :
  Parser.parse_structured_script
    ("dialogue:" +:+ nl +:+ nl +:+ "dialogue:" +:+ nl +:+ nl +:+ "overlay:" +:+ nl +:+ "X"
       +:+ nl +:+ "dialogue:" +:+ nl +:+ "Y")
  = Ok [Cue "overlay" "X" 1; Cue "dialogue" "Y" 0]
  ∧ ¬ (dialogue_index (Cue "overlay" "X" 1) ≤ dialogue_index (Cue "dialogue" "Y" 0))%Z.
Proof. split; [vm_compute; reflexivity | simpl; lia]. Qed.

(** C8. The parser returns a cue list on every text; the iteration for a
    marker line that is the last line, or whose next line is empty after
    trimming, leaves the cue list as it was; and parsing the same text
    again gives the same result. *)
Theorem parser_total (text : string) :
  let lines := PyStr.split_lines text in
  (∃ cues, Parser.parse_structured_script text = Ok cues)
  ∧ (∀ n line, lines !! n = Some line →
       str_in (Parser.clean line) Parser.markers = true →
       (S n = length lines ∨ ∃ nxt, lines !! S n = Some nxt ∧ PyStr.strip nxt = "") →
       Parser.contributes_nothing lines n)
  ∧ (∀ r1 r2, Parser.parse_structured_script text = r1 →
              Parser.parse_structured_script text = r2 → r1 = r2).
Proof.
  intros lines. split; [|split].
  - rewrite parse_unfold. fold lines.
    destruct (loop_upto_total lines (length lines)) as [st ->]. by exists st.2.
  - intros n line Hline _ Hnext.
    destruct (loop_upto_total lines n) as [st Hst]. exists st. split; [done|].
    rewrite loop_upto_step, Hline, Hst. simpl.
    by rewrite (emission_marker_without_content lines _ n line).
  - by intros r1 r2 <- <-.
Qed.

Lemma parser_total_witness :
  Parser.contributes_nothing ["dialogue:"; "Hello"; "overlay:"; "  "] 2.
Proof.
  apply (proj1 (proj2 (parser_total
    ("dialogue:" +:+ nl +:+ "Hello" +:+ nl +:+ "overlay:" +:+ nl +:+ "  ")))
    2%nat "overlay:").
  - reflexivity.
  - reflexivity.
  - right. exists "  ". split; reflexivity.
Defined.

(** C9. A line that equals a marker both gives the preceding marker its
    content and opens a cue of its own: for the three lines [dialogue:],
    [overlay:], [X] the parser returns a dialogue cue with content
    [overlay:] and then an overlay cue with content [X]. *)
Theorem marker_line_as_content :
  Parser.parse_structured_script ("dialogue:" +:+ nl +:+ "overlay:" +:+ nl +:+ "X")
  = Ok [Cue "dialogue" "overlay:" 0; Cue "overlay" "X" 0]
  ∧ Parser.emitted_at ["dialogue:"; "overlay:"; "X"] 0 (Cue "dialogue" "overlay:" 0)
  ∧ Parser.emitted_at ["dialogue:"; "overlay:"; "X"] 1 (Cue "overlay" "X" 0).
Proof.
  split; [vm_compute; reflexivity|].
  split; eexists _, _; (split; [|split]); vm_compute; reflexivity.
Qed.

(** ** B-roll matching: stated properties *)

Lemma contains_empty s : PyStr.contains s "" = true.
Proof. by destruct s. Qed.

Lemma keywords_loop_empty files text f kws m0 :
  Forall (λ k, k = "") kws →
  BRoll.keywords_loop files text f kws m0 = Ok m0.
Proof. induction 1 as [|k kws -> _ IH]; simpl; done. Qed.

Lemma keywords_loop_str files text f kws m0 :
  BRoll.keywords_loop files (PyStr text) f kws m0
  = Ok (if existsb (λ k, PyStr.truthy k && PyStr.contains (PyStr.lower text) k) kws
        then files !! f else m0).
Proof.
  induction kws as [|k kws IH]; [done|]. cbn [BRoll.keywords_loop existsb].
  destruct (PyStr.truthy k); [|by rewrite IH].
  cbn [PyVal.lower mbind result_bind]. cbn [andb orb].
  destruct (PyStr.contains (PyStr.lower text) k); [done | by rewrite IH].
Qed.

Lemma assets_loop_skip_empty files text f kws items1 items2 m0 :
  Forall (λ k, k = "") kws → path_truthy m0 = false →
  BRoll.assets_loop files text (items1 ++ (f, kws) :: items2) m0
  = BRoll.assets_loop files text (items1 ++ items2) m0.
Proof.
  intros Hk. revert m0. induction items1 as [|[f1 k1] items1 IH]; intros m0 Hm0.
  - simpl. rewrite keywords_loop_empty by done. simpl. by rewrite Hm0.
  - simpl. destruct (BRoll.keywords_loop files text f1 k1 m0) as [m|e]; [|done].
    simpl. destruct (path_truthy m) eqn:Hm; [done | by apply IH].
Qed.

(** C10. The empty string is contained in every string, yet a run of
    empty keywords leaves [matched_b_roll_path] as it was, whatever the
    dialogue text is; so an asset all of whose keywords are empty never
    takes part in the match: removing it from the keyword map does not
    change the result. *)
Theorem empty_keywords_never_match (files : gmap string string) (text : pyval) :
  (∀ s, PyStr.contains s "" = true)
  ∧ (∀ f kws m0, Forall (λ k, k = "") kws →
       BRoll.keywords_loop files text f kws m0 = Ok m0)
  ∧ (∀ f kws items1 items2, Forall (λ k, k = "") kws →
       BRoll.match_b_roll files (items1 ++ (f, kws) :: items2) text
       = BRoll.match_b_roll files (items1 ++ items2) text).
Proof.
  split; [apply contains_empty|]. split.
  - intros. by apply keywords_loop_empty.
  - intros. by apply assets_loop_skip_empty.
Qed.

Lemma empty_keywords_never_match_witness :
  BRoll.match_b_roll {["asset1" := "/b/asset1.mp4"]}
                     ([] ++ ("asset1", [""; ""]) :: []) (PyStr "the cat")
  = BRoll.match_b_roll {["asset1" := "/b/asset1.mp4"]} ([] ++ []) (PyStr "the cat").
Proof.
  apply (proj2 (proj2 (empty_keywords_never_match
                         {["asset1" := "/b/asset1.mp4"]} (PyStr "the cat")))).
  repeat constructor.
Defined.

Lemma assets_loop_str files text items m0 :
  (∀ f kws k, (f, kws) ∈ items → k ∈ kws → PyStr.lower k = k) →
  path_truthy m0 = false →
  ∃ m, BRoll.assets_loop files (PyStr text) items m0 = Ok m
       ∧ BRoll.selected m = (guarded_first_match files items text ≫= λ f, files !! f).
Proof.
  revert m0. induction items as [|[f kws] items IH]; intros m0 Hlow Hm0.
  - exists m0. split; [done|]. unfold BRoll.selected. by rewrite Hm0.
  - cbn [BRoll.assets_loop]. rewrite keywords_loop_str. cbn [mbind result_bind].
    unfold guarded_first_match. cbn [find fst snd].
    assert (Hex : existsb (λ k, PyStr.truthy k
                     && PyStr.contains (PyStr.lower text) (PyStr.lower k)) kws
                  = existsb (λ k, PyStr.truthy k
                     && PyStr.contains (PyStr.lower text) k) kws).
    { assert (Hk : ∀ k, k ∈ kws → PyStr.lower k = k)
        by (intros k Hk; apply (Hlow f kws); [left | done]).
      clear -Hk. induction kws as [|k kws IHk]; [done|]. simpl.
      rewrite (Hk k) by left. rewrite IHk; [done|]. intros; apply Hk. by right. }
    rewrite Hex. clear Hex.
    destruct (existsb _ kws).
    + destruct (path_truthy (files !! f)) eqn:Hp.
      * exists (files !! f). split; [done|]. simpl.
        unfold BRoll.selected. by rewrite Hp.
      * cbn [andb]. apply IH; [|done]. intros; eapply Hlow; [by right | done].
    + rewrite Hm0. cbn [andb]. apply IH; [|done].
      intros; eapply Hlow; [by right | done].
Qed.

(** C5, as the code has it. For a keyword map whose keywords are already
    lower-case, the match selects the path of the first asset, in map
    order, that has a non-empty keyword occurring in the lower-cased
    dialogue text and a non-empty path in the asset map, and nothing when
    there is no such asset; for the map [asset1 -> cat, asset2 -> dog] and
    the text [the cat and the dog], the path of asset1 is selected whenever
    the asset map has one. *)
Theorem b_roll_first_usable_match (files : gmap string string)
    (items : list (string * list string)) (text : string) :
  (∀ f kws k, (f, kws) ∈ items → k ∈ kws → PyStr.lower k = k) →
  (∃ m, BRoll.match_b_roll files items (PyStr text) = Ok m
        ∧ BRoll.selected m = (guarded_first_match files items text ≫= λ f, files !! f))
  ∧ BRoll.match_b_roll files [] (PyStr text) = Ok None
  ∧ (∀ p, files !! "asset1" = Some p → PyStr.truthy p = true →
       BRoll.match_b_roll files [("asset1", ["cat"]); ("asset2", ["dog"])]
                          (PyStr "the cat and the dog") = Ok (Some p)).
Proof.
  intros Hlow. split; [by apply assets_loop_str|]. split; [done|].
  intros p Hp Ht. unfold BRoll.match_b_roll. cbn [BRoll.assets_loop].
  rewrite keywords_loop_str. simpl. rewrite Hp. simpl. by rewrite Ht.
Qed.

Lemma b_roll_first_usable_match_witness :
  BRoll.match_b_roll {["asset1" := "/b/asset1.mp4"]}
     [("asset1", ["cat"]); ("asset2", ["dog"])] (PyStr "the cat and the dog")
  = Ok (Some "/b/asset1.mp4").
Proof.
  apply (proj2 (proj2 (b_roll_first_usable_match
           {["asset1" := "/b/asset1.mp4"]} [("asset1", ["cat"])] "the cat"
           ltac:(intros f kws k Hf Hk;
                 apply list_elem_of_singleton in Hf; injection Hf as -> ->;
                 apply list_elem_of_singleton in Hk; by subst k)))).
  - reflexivity.
  - reflexivity.
Defined.

(** C5 as stated fails on a keyword map with an empty keyword: the empty
    string is a substring of every text, so the stated policy picks asset1,
    while the code passes over it and takes asset2. *)
Lemma empty_keyword_breaks_first_match :
  let files : gmap string string :=
    <["asset1" := "/b/asset1.mp4"]> {["asset2" := "/b/asset2.mp4"]} in
  let items := [("asset1", [""]); ("asset2", ["dog"])] in
  spec_first_match items "the dog" = Some "asset1"
  ∧ BRoll.match_b_roll files items (PyStr "the dog") = Ok (Some "/b/asset2.mp4")
  ∧ files !! "asset1" = Some "/b/asset1.mp4".
Proof. repeat split; vm_compute; reflexivity. Qed.

(** ** The cut loop *)

Section CutLoop.
Context `{MoviePy}.
Variables (main_clip : clip) (overlay_map : gmap Z string).
Variables (b_roll_files : gmap string string)
          (b_roll_keyword_map : list (string * list string)).
Variables (add_subtitles add_b_roll add_overlays : bool).

Local Abbreviation body :=
  (Assembly.cut_loop_body main_clip overlay_map b_roll_files b_roll_keyword_map
                          add_subtitles add_b_roll add_overlays).
Local Abbreviation upto :=
  (Assembly.clips_upto main_clip overlay_map b_roll_files b_roll_keyword_map
                       add_subtitles add_b_roll add_overlays).
Local Abbreviation segment_of_cut :=
  (Assembly.segment_of_cut main_clip overlay_map b_roll_files b_roll_keyword_map
                           add_subtitles add_b_roll add_overlays).
Local Abbreviation segments :=
  (Assembly.compose_segments main_clip overlay_map b_roll_files b_roll_keyword_map
                             add_subtitles add_b_roll add_overlays).

Lemma body_dict final_clips i cut :
  body final_clips (i, CutDict cut) = Ok final_clips
  ∨ ∃ seg, body final_clips (i, CutDict cut) = Ok (final_clips ++ [seg]).
Proof.
  unfold Assembly.cut_loop_body, Assembly.try_cut, CutEntry.getitem, CutEntry.get.
  cbn [fst snd].
  destruct (PyVal.getitem cut "start") as [s|]; [|by left].
  destruct (PyVal.getitem cut "end") as [e|]; [|by left].
  destruct (PyVal.getitem cut "text") as [t|]; [|by left].
  cbn [mbind result_bind].
  destruct (PyVal.gt e s) as [[|]|]; cbn [mbind result_bind]; [|by left..].
  destruct (PyVal.sub e s) as [d|]; [|by left]. cbn [mbind result_bind].
  destruct (subclip main_clip s e) as [c|]; [|by left]. cbn [mbind result_bind].
  destruct (Assembly.b_roll_step _ _ _ _ _ _ _) as [c'|]; [|by left].
  cbn [mbind result_bind].
  destruct (CompositeVideoClip _); right; eauto.
Qed.


Lemma body_appends_at_most_one final_clips ic final_clips' :
  body final_clips ic = Ok final_clips' →
  final_clips' = final_clips ∨ ∃ seg, final_clips' = final_clips ++ [seg].
Proof.
  destruct ic as [i [cut|v|items]]; [|done..].
  destruct (body_dict final_clips i cut) as [->|[seg ->]]; intros [= <-]; eauto.
Qed.

Lemma rejected_no_segment final_clips i cut :
  rejected cut → body final_clips (i, CutDict cut) = Ok final_clips.
Proof.
  unfold Assembly.cut_loop_body, Assembly.try_cut, CutEntry.getitem, CutEntry.get,
    PyVal.getitem. cbn [fst snd].
  intros [Hs|[He|[Ht|(s & e & Hs & He & Hbad)]]].
  - by rewrite Hs.
  - destruct (cut !! "start"); [|done]. by rewrite He.
  - destruct (cut !! "start"); [|done]. destruct (cut !! "end"); [|done].
    by rewrite Ht.
  - rewrite Hs, He. destruct (cut !! "text") as [t|]; [|done].
    cbn [mbind result_bind].
    destruct Hbad as [Hn|[Hn|Hgt]].
    + destruct s; try done; destruct e; try done; simpl;
        (destruct (String.ltb _ _); done).
    + destruct e; try done; destruct s; try done; simpl;
        (destruct (String.ltb _ _); done).
    + by rewrite Hgt.
Qed.

Lemma upto_step cut_list n :
  upto cut_list (S n)
  = match cut_list !! n with
    | Some entry => final_clips ← upto cut_list n; body final_clips (n, entry)
    | None => upto cut_list n
    end.
Proof.
  unfold Assembly.clips_upto. destruct (cut_list !! n) as [entry|] eqn:Hcut.
  - rewrite (take_S_r _ _ (n, entry)) by (by rewrite enumerate_lookup, Hcut).
    by rewrite for_each_snoc.
  - apply lookup_ge_None in Hcut.
    rewrite !take_ge; [done | |]; unfold enumerate;
      rewrite enumerate_from_length; lia.
Qed.

Lemma upto_length cut_list : upto cut_list (length cut_list) = segments cut_list.
Proof.
  unfold Assembly.clips_upto, Assembly.compose_segments.
  rewrite take_ge; [done|]. unfold enumerate. by rewrite enumerate_from_length.
Qed.

Lemma segments_resume cut_list n :
  segments cut_list
  = (final_clips ← upto cut_list n;
     for_each body (drop n (enumerate cut_list)) final_clips).
Proof.
  unfold Assembly.compose_segments, Assembly.clips_upto.
  by rewrite <- for_each_app, take_drop.
Qed.

Lemma upto_trace cut_list n final_clips :
  upto cut_list n = Ok final_clips →
  (length final_clips ≤ n)%nat
  ∧ ∃ ks, increasing ks ∧ Forall (λ k, (k < n `min` length cut_list)%nat) ks
          ∧ Forall2 (segment_of_cut cut_list) ks final_clips.
Proof.
  revert final_clips. induction n as [|n IH]; intros final_clips Hrun.
  - injection Hrun as <-. split; [done|]. exists []. repeat split; constructor.
  - pose proof Hrun as Hrun'. rewrite upto_step in Hrun.
    destruct (cut_list !! n) as [entry|] eqn:Hcut.
    + destruct (upto cut_list n) as [fc0|] eqn:H0; [|done].
      cbn [mbind result_bind] in Hrun.
      destruct (IH fc0 eq_refl) as (Hlen & ks & Hinc & Hlt & Hseg).
      pose proof (lookup_lt_Some _ _ _ Hcut) as Hn.
      assert (Hlt' : Forall (λ k, (k < S n `min` length cut_list)%nat) ks)
        by weaken_bound Hlt.
      destruct (body_appends_at_most_one _ _ _ Hrun) as [->|[seg ->]].
      * split; [lia|]. by exists ks.
      * split; [rewrite length_app; cbn [length]; lia|].
        exists (ks ++ [n]). split; [|split].
        -- apply increasing_snoc; [done|]. weaken_bound Hlt.
        -- apply Forall_app. split; [done|]. constructor; [lia | constructor].
        -- apply Forall2_app; [done|]. constructor; [|constructor].
           exists fc0. by split.
    + destruct (IH final_clips Hrun) as (Hlen & ks & Hinc & Hlt & Hseg).
      split; [lia|]. exists ks. split; [done|]. split; [|done].
      apply lookup_ge_None in Hcut. weaken_bound Hlt.
Qed.

Lemma dict_list_completes cut_list n :
  Forall is_dict cut_list → ∃ final_clips, upto cut_list n = Ok final_clips.
Proof.
  intros Hall. induction n as [|n [fc IH]]; [by eexists|].
  rewrite upto_step, IH. destruct (cut_list !! n) as [entry|] eqn:Hcut; [|eauto].
  cbn [mbind result_bind].
  assert (Hd : is_dict entry).
  { rewrite Forall_forall in Hall. apply Hall. by eapply list_elem_of_lookup_2. }
  destruct entry as [cut| |]; [|done..].
  destruct (body_dict fc n cut) as [->|[seg ->]]; eauto.
Qed.


(** C3. The composed segments are at most as many as the cuts, and they
    are the segments appended for a strictly increasing sequence of cut
    positions: one segment per kept cut, in cut order, and nothing for a
    dropped cut. A cut list whose entries are all objects always gets to
    its list of segments. *)
Theorem segments_follow_cut_order (cut_list : list cut_entry) :
  (∀ segs, segments cut_list = Ok segs →
     (length segs ≤ length cut_list)%nat
     ∧ ∃ ks, increasing ks ∧ Forall (λ k, (k < length cut_list)%nat) ks
             ∧ Forall2 (segment_of_cut cut_list) ks segs)
  ∧ (Forall is_dict cut_list → ∃ segs, segments cut_list = Ok segs).
Proof.
  split.
  - intros segs Hrun. rewrite <- upto_length in Hrun.
    destruct (upto_trace _ _ _ Hrun) as (Hlen & ks & Hinc & Hlt & Hseg).
    split; [done|]. exists ks. split; [done|]. split; [|done]. weaken_bound Hlt.
  - intros Hall. rewrite <- upto_length. by apply dict_list_completes.
Qed.

(** C2, as the code has it. A cut that is an object with a field absent,
    with a [start] or [end] that is null or a string, or with an [end] not
    later than its [start], appends no segment and does not abort the
    run: the loop goes on from the same [final_clips] with the cuts after
    it. *)
Theorem rejected_cut_is_skipped (cut_list : list cut_entry) (k : nat)
    (cut : gmap string pyval) (final_clips : list clip) :
  cut_list !! k = Some (CutDict cut) → rejected cut →
  upto cut_list k = Ok final_clips →
  upto cut_list (S k) = Ok final_clips
  ∧ segments cut_list
    = for_each body (drop (S k) (enumerate cut_list)) final_clips.
Proof.
  intros Hcut Hrej Hk.
  assert (Hk' : upto cut_list (S k) = Ok final_clips)
    by (by rewrite upto_step, Hcut, Hk; apply rejected_no_segment).
  split; [done|]. by rewrite (segments_resume cut_list (S k)), Hk'.
Qed.

Lemma all_rejected_no_segments (cut_list : list cut_entry) :
  Forall (λ entry, ∃ cut, entry = CutDict cut ∧ rejected cut) cut_list →
  segments cut_list = Ok [].
Proof.
  intros Hall. rewrite <- upto_length.
  assert (Hn : ∀ n, upto cut_list n = Ok []); [|done].
  induction n as [|n IH]; [done|]. rewrite upto_step, IH.
  destruct (cut_list !! n) as [entry|] eqn:Hcut; [|done].
  rewrite Forall_forall in Hall.
  destruct (Hall entry) as (cut & -> & Hrej); [by eapply list_elem_of_lookup_2|].
  by apply rejected_no_segment.
Qed.

End CutLoop.

(** ** The whole assembly *)

(** C4, on the inputs where it fails. No usable segment survives a cut
    list whose only entry is the number 1, and none when the footage
    cannot be opened; in both cases [assemble_video] raises instead of
    returning [None], and the footage opened in the first case is never
    closed. *)
Theorem unusable_input_raises :
  @Assembly.assemble_video symbolic_moviepy [CutScalar (PyNum 1)] "raw.mp4" [] ∅ []
     None true true false true
  = (Raise AttributeError, [])
  ∧ @Assembly.assemble_video unreadable_moviepy [] "missing.mp4" [] ∅ []
       None true true false true
    = (Raise MediaError, []).
Proof. split; vm_compute; reflexivity. Qed.

(** X21. When the footage opens, no cut aborts the loop and closing the
    footage does not raise: with no surviving segment, for instance when
    every cut fails validation or the cut list is empty, [assemble_video]
    returns [None] after closing the footage and without calling
    [write_videofile]; and it returns [None] exactly when no segment
    survives, the concatenation raises, or the encode raises. *)
Theorem fatal_only_without_segments `{MoviePy}
    (cut_list : list cut_entry) (original_video_path : string)
    (script_cues : list cue) (b_roll_files : gmap string string)
    (b_roll_keyword_map : list (string * list string)) (logo_file : option string)
    (add_subtitles add_b_roll add_logo add_overlays : bool) (main_clip : clip)
    (segs : list clip) :
  VideoFileClip original_video_path = Ok main_clip →
  Assembly.compose_segments main_clip (Assembly.build_overlay_map script_cues)
    b_roll_files b_roll_keyword_map add_subtitles add_b_roll add_overlays cut_list
  = Ok segs →
  close_clip main_clip = Ok () →
  let run :=
    Assembly.assemble_video cut_list original_video_path script_cues b_roll_files
      b_roll_keyword_map logo_file add_subtitles add_b_roll add_logo add_overlays in
  (segs = [] → run = (Ok None, [Assembly.EvClose]))
  ∧ (Forall (λ entry, ∃ cut, entry = CutDict cut ∧ rejected cut) cut_list → segs = [])
  ∧ ∃ r, run.1 = Ok r
      ∧ (r = None ↔
           segs = []
           ∨ (∃ e, concatenate_videoclips segs = Raise e)
           ∨ (∃ final_video e,
                concatenate_videoclips segs = Ok final_video
                ∧ write_videofile
                    (Assembly.logo_step main_clip logo_file add_logo final_video)
                    Assembly.output_path = Raise e)).
Proof.
  intros Hopen Hsegs Hclose run. subst run. unfold Assembly.assemble_video.
  rewrite Hopen, Hsegs. unfold Assembly.finish, Assembly.close_and_fail.
  rewrite Hclose. cbn [mbind result_bind].
  split; [|split].
  - intros ->. reflexivity.
  - intros Hall.
    rewrite (all_rejected_no_segments _ _ _ _ _ _ _ _ Hall) in Hsegs.
    by injection Hsegs.
  - destruct (decide (segs = [])) as [Hs|Hs].
    + rewrite bool_decide_eq_true_2 by done. exists None. split; [done|].
      split; auto.
    + rewrite bool_decide_eq_false_2 by done.
      destruct (concatenate_videoclips segs) as [fv|e] eqn:Hc.
      * destruct (write_videofile _ _) as [u|e] eqn:Hw; cbn [fst].
        -- eexists. split; [reflexivity|]. split; [done|].
           intros [?|[[e [=]]|(fv' & e & [= <-] & Hw')]]; [done|].
           rewrite Hw in Hw'. done.
        -- exists None. split; [done|]. split; [|done]. intros _. right. right. eauto.
      * exists None. split; [done|]. split; [|done]. intros _. right. left. eauto.
Qed.

Lemma segments_follow_cut_order_witness :
  ∃ segs,
    @Assembly.compose_segments symbolic_moviepy (SFile "raw.mp4") ∅ ∅ [] true true true
       [CutDict (cut_of (PyNum 1) (PyNum 3) (PyStr "Hello world"));
        CutDict (cut_of (PyNum 5) (PyNum 4) (PyStr "again"))]
    = Ok segs.
Proof.
  apply (proj2 (@segments_follow_cut_order symbolic_moviepy (SFile "raw.mp4") ∅ ∅ []
                  true true true _)).
  repeat constructor.
Defined.

Lemma rejected_cut_is_skipped_witness :
  @Assembly.clips_upto symbolic_moviepy (SFile "raw.mp4") ∅ ∅ [] true true true
     [CutDict (cut_of (PyNum 3) (PyNum 1) (PyStr "Hello world"))] 1
  = Ok [].
Proof.
  refine (proj1 (@rejected_cut_is_skipped symbolic_moviepy (SFile "raw.mp4") ∅ ∅ []
                   true true true
                   [CutDict (cut_of (PyNum 3) (PyNum 1) (PyStr "Hello world"))] 0%nat
                   (cut_of (PyNum 3) (PyNum 1) (PyStr "Hello world")) [] _ _ _)).
  - reflexivity.
  - right. right. right. exists (PyNum 3), (PyNum 1).
    split; [reflexivity|]. split; [reflexivity|]. right. right. reflexivity.
  - reflexivity.
Defined.

(** C2 as stated fails on a cut whose text is not a string: with no
    b-roll keywords the text is only used for the subtitle, whose failure
    is caught, and the cut is composed all the same. *)
Lemma cut_with_null_text_is_composed :
  PyVal.lower PyNone = Raise AttributeError
  ∧ @Assembly.compose_segments symbolic_moviepy (SFile "raw.mp4") ∅ ∅ [] true true true
      [CutDict (cut_of (PyNum 1) (PyNum 3) PyNone)]
    = Ok [SComposite [SSub (SFile "raw.mp4") (PyNum 1) (PyNum 3)]].
Proof. split; vm_compute; reflexivity. Qed.

Lemma fatal_only_without_segments_witness :
  @Assembly.assemble_video symbolic_moviepy
     [CutDict (cut_of (PyNum 3) (PyNum 1) (PyStr "Hello world"))] "raw.mp4" [] ∅ [] None
     true true false true
  = (Ok None, [@Assembly.EvClose symbolic_moviepy]).
Proof.
  refine (proj1 (@fatal_only_without_segments symbolic_moviepy
                   [CutDict (cut_of (PyNum 3) (PyNum 1) (PyStr "Hello world"))]
                   "raw.mp4" [] ∅ [] None true true false true (SFile "raw.mp4") []
                   _ _ _) _).
  - reflexivity.
  - vm_compute. reflexivity.
  - reflexivity.
  - reflexivity.
Defined.

Example assemble_one_cut :
  @Assembly.assemble_video symbolic_moviepy
     [CutDict (cut_of (PyNum 1) (PyNum 3) (PyStr "Hello world"))] "raw.mp4" [] ∅ [] None
     true true false true
  = (Ok (Some "CineAI_Final_Output.mp4"),
     [@Assembly.EvWrite symbolic_moviepy
        (SConcat [SComposite [SSub (SFile "raw.mp4") (PyNum 1) (PyNum 3);
                              SText (PyStr "Hello world") 48 1920
                                    (AnchorXY "center" "bottom")
                                    (PyNum (Qminus 3 1))]])
        "CineAI_Final_Output.mp4";
      @Assembly.EvClose symbolic_moviepy]).
Proof. vm_compute. reflexivity. Qed.

Example boolean_times_are_numbers :
  @Assembly.compose_segments symbolic_moviepy (SFile "raw.mp4") ∅ ∅ [] false false false
     [CutDict (cut_of (PyBool false) (PyBool true) (PyStr "Hello"))]
  = Ok [SComposite [SSub (SFile "raw.mp4") (PyBool false) (PyBool true)]].
Proof. vm_compute. reflexivity. Qed.

(** ** The cue parser: further properties *)

Lemma parse_cues_emitted text cues c :
  Parser.parse_structured_script text = Ok cues → c ∈ cues →
  ∃ n, Parser.emitted_at (PyStr.split_lines text) n c.
Proof.
  rewrite parse_unfold. intros Hp Hc.
  destruct (Parser.loop_upto _ _) as [st|] eqn:Hst; [|done].
  injection Hp as <-.
  destruct (loop_trace _ _ st Hst) as (ns & _ & _ & Hem).
  apply list_elem_of_lookup in Hc as [k Hk].
  destruct (Forall2_lookup_r _ _ _ _ _ Hem Hk) as (n & _ & Hn). eauto.
Qed.

(** X1. Every cue the parser returns has one of the three types
    [dialogue], [b-roll], [overlay] and a content that is not empty. *)
Theorem cues_well_formed (text : string) (cues : list cue) (c : cue) :
  Parser.parse_structured_script text = Ok cues → c ∈ cues →
  (cue_type c = "dialogue" ∨ cue_type c = "b-roll" ∨ cue_type c = "overlay")
  ∧ content c ≠ "".
Proof.
  intros Hp Hc. destruct (parse_cues_emitted _ _ _ Hp Hc) as [n Hn].
  apply emitted_at_inv in Hn as (st & _ & He).
  apply emission_Some in He as (line & nxt & _ & Hm & _ & Ht & Hty & Hco & _).
  split.
  - rewrite Hty. apply marker_cases in Hm as [->|[->| ->]]; vm_compute; auto.
  - rewrite Hco. by destruct (PyStr.strip nxt).
Qed.

Lemma cues_well_formed_witness :
  (cue_type (Cue "b-roll" "[office shot]" 0) = "dialogue"
   ∨ cue_type (Cue "b-roll" "[office shot]" 0) = "b-roll"
   ∨ cue_type (Cue "b-roll" "[office shot]" 0) = "overlay")
  ∧ content (Cue "b-roll" "[office shot]" 0) ≠ "".
Proof.
  apply (cues_well_formed
           ("dialogue:" +:+ nl +:+ "Hello world" +:+ nl +:+ "b-roll:" +:+ nl
              +:+ "[office shot]")
           [Cue "dialogue" "Hello world" 0; Cue "b-roll" "[office shot]" 0]).
  - vm_compute. reflexivity.
  - right. left.
Defined.

(** X2. For every text, the dialogue cue numbered [k] is the [k]-th
    dialogue cue, and its content is the [k]-th entry of the caller's
    [perfect_sentences]; the two lists have the same length. *)
Theorem perfect_sentences_aligned (text : string) (cues : list cue) :
  Parser.parse_structured_script text = Ok cues →
  length (App.perfect_sentences cues)
  = length (filter (λ c, cue_type c = "dialogue") cues)
  ∧ ∀ c, c ∈ cues → cue_type c = "dialogue" →
      (0 ≤ dialogue_index c)%Z
      ∧ App.perfect_sentences cues !! Z.to_nat (dialogue_index c) = Some (content c).
Proof.
  rewrite parse_unfold. intros Hp.
  destruct (Parser.loop_upto _ _) as [st|] eqn:Hst; [|done].
  injection Hp as <-.
  destruct (loop_invariant _ _ st Hst) as (_ & Hidx & _ & _).
  unfold App.perfect_sentences. split; [by rewrite length_fmap|].
  intros c Hc Hty.
  assert (Hin : c ∈ filter (λ c, cue_type c = "dialogue") st.2)
    by (by apply list_elem_of_filter).
  apply list_elem_of_lookup in Hin as [k Hk].
  assert (Hik : (dialogue_index <$> filter (λ c, cue_type c = "dialogue") st.2) !! k
                = Some (dialogue_index c))
    by (by rewrite list_lookup_fmap, Hk).
  rewrite Hidx, list_lookup_fmap in Hik.
  destruct (seq 0 (Z.to_nat st.1) !! k) as [j|] eqn:Hj; [|done].
  apply lookup_seq in Hj as [-> _]. injection Hik as Hik. simpl in Hik.
  rewrite <- Hik, Nat2Z.id. split; [lia|]. by rewrite list_lookup_fmap, Hk.
Qed.

Lemma perfect_sentences_aligned_witness :
  App.perfect_sentences
    [Cue "dialogue" "Hello world" 0; Cue "b-roll" "[office shot]" 0;
     Cue "dialogue" "Goodbye" 1] !! Z.to_nat 1
  = Some "Goodbye".
Proof.
  refine (proj2 (proj2 (perfect_sentences_aligned
           ("dialogue:" +:+ nl +:+ "Hello world" +:+ nl +:+ "b-roll:" +:+ nl
              +:+ "[office shot]" +:+ nl +:+ "dialogue:" +:+ nl +:+ "Goodbye")
           _ _) (Cue "dialogue" "Goodbye" 1) _ _)).
  - vm_compute. reflexivity.
  - right. right. left.
  - reflexivity.
Defined.

Lemma markers_before_le lines n :
  (markers_before lines n ≤ length (spec_dialogue_marker_lines lines))%nat.
Proof. unfold markers_before. apply length_filter. Qed.

Lemma markers_before_mono lines n :
  (markers_before lines n ≤ markers_before lines (S n))%nat.
Proof.
  destruct (lines !! n) as [line|] eqn:Hl.
  - rewrite (markers_before_S _ _ _ Hl). lia.
  - apply lookup_ge_None in Hl. rewrite !markers_before_all by lia. done.
Qed.

(** X3. Every [dialogue_index] the parser returns lies between -1 and
    N-1, where N is the number of dialogue-marker lines of the text; that
    of a dialogue cue is never negative. *)
Theorem dialogue_index_bounds (text : string) (cues : list cue) (c : cue) :
  let N := length (filter (λ l, Parser.clean l = "dialogue:") (PyStr.split_lines text)) in
  Parser.parse_structured_script text = Ok cues → c ∈ cues →
  (-1 ≤ dialogue_index c < Z.of_nat N)%Z
  ∧ (cue_type c = "dialogue" → (0 ≤ dialogue_index c)%Z).
Proof.
  intros N Hp Hc. subst N. rewrite <- marker_lines_count.
  destruct (parse_cues_emitted _ _ _ Hp Hc) as [n Hn].
  apply emitted_at_inv in Hn as (st & Hst & He).
  destruct (loop_invariant _ _ st Hst) as (Hpos & _ & Hle & _).
  apply emission_Some in He as (line & nxt & Hl & Hm & _ & _ & Hty & _ & Hdi).
  pose proof (markers_before_le (PyStr.split_lines text) n) as Hb.
  pose proof (markers_before_le (PyStr.split_lines text) (S n)) as Hb'.
  destruct (String.eqb (cue_type c) "dialogue") eqn:Ed.
  - assert (Hcl : Parser.clean line = "dialogue:")
      by (apply dialogue_type_iff; [done | by rewrite <- Hty]).
    rewrite (markers_before_S _ _ _ Hl), decide_True in Hb' by done.
    rewrite Hdi. split; lia.
  - apply String.eqb_neq in Ed. rewrite Hdi. split; [lia | done].
Qed.

Lemma dialogue_index_bounds_witness :
  (-1 ≤ dialogue_index (Cue "overlay" "X" (-1)) < Z.of_nat 1)%Z
  ∧ (cue_type (Cue "overlay" "X" (-1)) = "dialogue"
     → (0 ≤ dialogue_index (Cue "overlay" "X" (-1)))%Z).
Proof.
  apply (dialogue_index_bounds
           ("overlay:" +:+ nl +:+ "X" +:+ nl +:+ "dialogue:" +:+ nl +:+ "Y")
           [Cue "overlay" "X" (-1); Cue "dialogue" "Y" 0]).
  - vm_compute. reflexivity.
  - left.
Defined.

(** X4. When every dialogue marker has content, a b-roll or overlay cue
    is linked to the dialogue cue appended last before it: its
    [dialogue_index] is the number of dialogue cues already in the list,
    minus one. *)
Theorem link_is_latest_dialogue_cue (lines : list string) (n : nat) (c : cue) :
  dialogue_markers_have_content lines →
  Parser.emitted_at lines n c → cue_type c ≠ "dialogue" →
  ∃ st, Parser.loop_upto lines n = Ok st
        ∧ dialogue_index c
          = (Z.of_nat (length (filter (λ c, cue_type c = "dialogue") st.2)) - 1)%Z.
Proof.
  intros Hall (st & Hst & He)%emitted_at_inv Hty. exists st. split; [done|].
  destruct (loop_invariant _ _ st Hst) as (Hpos & Hidx & _ & Heq).
  specialize (Heq Hall).
  apply emission_Some in He as (line & nxt & _ & _ & _ & _ & _ & _ & Hdi).
  apply (f_equal length) in Hidx. rewrite !length_fmap, length_seq in Hidx.
  rewrite Hdi, Hidx, <- Heq.
  destruct (String.eqb_spec (cue_type c) "dialogue"); [done | lia].
Qed.

Lemma link_is_latest_dialogue_cue_witness :
  ∃ st, Parser.loop_upto ["dialogue:"; "Hello"; "overlay:"; "X"] 2 = Ok st
        ∧ dialogue_index (Cue "overlay" "X" 0)
          = (Z.of_nat (length (filter (λ c, cue_type c = "dialogue") st.2)) - 1)%Z.
Proof.
  apply (link_is_latest_dialogue_cue ["dialogue:"; "Hello"; "overlay:"; "X"] 2).
  - intros i line Hi Hc. destruct i as [|[|[|[|i]]]]; simpl in Hi;
      try discriminate; injection Hi as <-; vm_compute in Hc; try discriminate.
    exists "Hello". split; [reflexivity | discriminate].
  - eexists _, _. split; [|split]; vm_compute; reflexivity.
  - simpl. discriminate.
Defined.

(** X5. A text none of whose lines is a marker gives the empty cue
    list. *)
Theorem no_marker_no_cue (text : string) :
  Forall (λ l, str_in (Parser.clean l) Parser.markers = false) (PyStr.split_lines text) →
  Parser.parse_structured_script text = Ok [].
Proof.
  intros Hall. rewrite parse_unfold.
  assert (Hn : ∀ n, Parser.loop_upto (PyStr.split_lines text) n = Ok (0, [])).
  { induction n as [|n IH]; [done|]. rewrite loop_upto_step, IH.
    destruct (_ !! n) as [line|] eqn:Hl; [|done]. cbn [mbind result_bind fst].
    unfold emission. rewrite Hl. cbn [mbind option_bind].
    rewrite Forall_forall in Hall.
    by rewrite (Hall line) by (by eapply list_elem_of_lookup_2). }
  by rewrite Hn.
Qed.

Lemma no_marker_no_cue_witness :
  Parser.parse_structured_script ("Hello world" +:+ nl +:+ "dialogue: inline") = Ok [].
Proof.
  apply no_marker_no_cue. repeat constructor.
Defined.

(** ** The caller: keyword lists *)

Lemma lower_char_idem c : PyStr.lower_char (PyStr.lower_char c) = PyStr.lower_char c.
Proof. destruct c as [[] [] [] [] [] [] [] []]; vm_compute; reflexivity. Qed.

Lemma lower_idem s : PyStr.lower (PyStr.lower s) = PyStr.lower s.
Proof. induction s as [|c s IH]; simpl; [done | by rewrite lower_char_idem, IH]. Qed.

Lemma keyword_list_lower keywords k :
  k ∈ App.keyword_list keywords → PyStr.lower k = k.
Proof.
  unfold App.keyword_list. intros (k0 & -> & _)%list_elem_of_fmap.
  apply lower_idem.
Qed.

Lemma split_on_length sep s :
  length (App.split_on sep s) = S (count_char sep s).
Proof.
  induction s as [|c s IH]; [done|]. simpl.
  destruct (Ascii.eqb c sep); simpl; [by rewrite IH|].
  destruct (App.split_on sep s); simpl in *; lia.
Qed.

(** X6. The keyword list the caller builds from a typed string has one
    entry per comma plus one, so it is never empty, and every entry is
    lower-case. *)
Theorem keyword_list_shape (keywords : string) :
  length (App.keyword_list keywords) = S (count_char ","%char keywords)
  ∧ Forall (λ k, PyStr.lower k = k) (App.keyword_list keywords).
Proof.
  split.
  - unfold App.keyword_list. by rewrite length_fmap, split_on_length.
  - apply Forall_forall. apply keyword_list_lower.
Qed.

(** X7. On a keyword map whose lists the caller built, the b-roll match
    is the guarded first match: the path of the first asset with a
    non-empty keyword found in the lower-cased text, case ignored, and a
    non-empty path. *)
Theorem match_on_caller_keywords (files : gmap string string)
    (typed : list (string * string)) (text : string) :
  let items := (λ fk : string * string, (fk.1, App.keyword_list fk.2)) <$> typed in
  ∃ m, BRoll.match_b_roll files items (PyStr text) = Ok m
       ∧ BRoll.selected m = (guarded_first_match files items text ≫= λ f, files !! f).
Proof.
  intros items. apply assets_loop_str; [|done].
  intros f kws k (fk & [= -> ->] & _)%list_elem_of_fmap Hk.
  by eapply keyword_list_lower.
Qed.

Example caller_keywords_trailing_comma :
  App.keyword_list " Cat , DOG," = ["cat"; "dog"; ""].
Proof. vm_compute. reflexivity. Qed.

(** ** The caller: the text handed to the JSON parser *)

Lemma string_length_nonneg (s : string) : (0 ≤ Z.of_nat (String.length s))%Z.
Proof. lia. Qed.

Lemma find_char_spec c s :
  App.find_char c s = (-1)%Z
  ∨ (0 ≤ App.find_char c s < Z.of_nat (String.length s))%Z
    ∧ String.get (Z.to_nat (App.find_char c s)) s = Some c.
Proof.
  induction s as [|a s IH]; [by left|]. cbn [App.find_char String.length].
  destruct (Ascii.eqb_spec a c) as [->|Hne].
  - right. split; [lia | done].
  - destruct IH as [->|[Hr Hg]]; [by left|].
    destruct (Z.ltb_spec (App.find_char c s) 0); [lia|]. right. split; [lia|].
    replace (Z.to_nat (App.find_char c s + 1)) with (S (Z.to_nat (App.find_char c s)))
      by lia. done.
Qed.

Lemma rfind_char_spec c s :
  App.rfind_char c s = (-1)%Z
  ∨ (0 ≤ App.rfind_char c s < Z.of_nat (String.length s))%Z
    ∧ String.get (Z.to_nat (App.rfind_char c s)) s = Some c.
Proof.
  induction s as [|a s IH]; [by left|]. cbn [App.rfind_char String.length].
  destruct IH as [->|[Hr Hg]].
  - simpl. destruct (Ascii.eqb_spec a c) as [->|Hne]; [|by left].
    right. split; [lia | done].
  - destruct (Z.leb_spec 0 (App.rfind_char c s)); [|lia]. right. split; [lia|].
    replace (Z.to_nat (App.rfind_char c s + 1)) with (S (Z.to_nat (App.rfind_char c s)))
      by lia. done.
Qed.

Lemma rfind_char_last c s :
  String.get (String.length s - 1) s = Some c →
  App.rfind_char c s = (Z.of_nat (String.length s) - 1)%Z.
Proof.
  induction s as [|a s IH]; [done|]. cbn [App.rfind_char String.length].
  destruct s as [|b s].
  - simpl. intros [= ->]. by rewrite Ascii.eqb_refl.
  - intros Hg.
    replace (S (String.length (String b s)) - 1)%nat
      with (S (String.length (String b s) - 1)) in Hg by (simpl; lia).
    specialize (IH Hg). rewrite IH.
    destruct (Z.leb_spec 0 (Z.of_nat (String.length (String b s)) - 1));
      [lia | simpl in *; lia].
Qed.

Lemma substring_all s : String.substring 0 (String.length s) s = s.
Proof. induction s as [|a s IH]; simpl; [done | by rewrite IH]. Qed.

(** X8. A response without a closing bracket gives the JSON parser the
    empty string, whatever else it holds. *)
Theorem json_string_without_closing (ai_response : string) :
  App.rfind_char "]"%char ai_response = (-1)%Z →
  App.json_string ai_response = "".
Proof.
  intros Hr. unfold App.json_string, App.slice. rewrite Hr.
  change (-1 + 1)%Z with 0%Z.
  assert (Hhi : App.slice_bound (Z.of_nat (String.length ai_response)) 0 = 0%Z)
    by (unfold App.slice_bound; change (0 <? 0)%Z with false; cbv iota; lia).
  rewrite Hhi. clear Hhi.
  set (lo := App.slice_bound _ _).
  assert (0 ≤ lo)%Z.
  { unfold lo, App.slice_bound.
    destruct (Z.ltb_spec (App.find_char "["%char ai_response) 0); lia. }
  replace (Z.to_nat (0 - lo)) with 0%nat by lia.
  generalize (Z.to_nat lo). clear.
  induction ai_response as [|a s IH]; intros [|n]; simpl; auto.
Qed.

Lemma json_string_without_closing_witness :
  App.json_string "Sorry, I found [no takes" = "".
Proof. apply json_string_without_closing. reflexivity. Defined.

(** X9. A response that already is a bracketed array, first character
    [[] and last character []], is handed over unchanged. *)
Theorem json_string_bare_array (ai_response : string) :
  String.get 0 ai_response = Some "["%char →
  String.get (String.length ai_response - 1) ai_response = Some "]"%char →
  App.json_string ai_response = ai_response.
Proof.
  intros H0 Hlast. unfold App.json_string, App.slice.
  rewrite (rfind_char_last _ _ Hlast).
  assert (Hf : App.find_char "["%char ai_response = 0%Z).
  { destruct ai_response as [|a s]; [done|]. simpl in *. injection H0 as ->. done. }
  rewrite Hf.
  assert (0 < String.length ai_response)%nat by (destruct ai_response; [done | simpl; lia]).
  unfold App.slice_bound. simpl (0 <? 0)%Z. cbn iota.
  destruct (Z.ltb_spec (Z.of_nat (String.length ai_response) - 1 + 1) 0); [lia|].
  rewrite !Z.min_l by lia. rewrite Z.sub_0_r.
  replace (Z.to_nat (Z.of_nat (String.length ai_response) - 1 + 1))
    with (String.length ai_response) by lia.
  apply substring_all.
Qed.

Lemma json_string_bare_array_witness :
  App.json_string "[{}]" = "[{}]".
Proof. apply json_string_bare_array; reflexivity. Defined.

(** X10. When the first opening bracket is at position [i] and the last
    closing bracket at [j] with [i <= j], the JSON parser gets the
    [j - i + 1] characters from [i] on: the text in between, brackets
    included, with the prose around it cut off. *)
Theorem json_string_between_brackets (ai_response : string) (i j : nat) :
  App.find_char "["%char ai_response = Z.of_nat i →
  App.rfind_char "]"%char ai_response = Z.of_nat j →
  (i ≤ j)%nat →
  App.json_string ai_response = String.substring i (j - i + 1) ai_response
  ∧ String.get 0 (App.json_string ai_response) = Some "["%char
  ∧ String.get (j - i) (App.json_string ai_response) = Some "]"%char.
Proof.
  intros Hf Hr Hij.
  destruct (find_char_spec "["%char ai_response) as [Hn|[Hfb Hfg]]; [lia|].
  destruct (rfind_char_spec "]"%char ai_response) as [Hn|[Hrb Hrg]]; [lia|].
  rewrite Hf, Nat2Z.id in Hfg. rewrite Hr, Nat2Z.id in Hrg.
  assert (He : App.json_string ai_response
               = String.substring i (j - i + 1) ai_response).
  { unfold App.json_string, App.slice, App.slice_bound. rewrite Hf, Hr.
    destruct (Z.ltb_spec (Z.of_nat i) 0); [lia|].
    destruct (Z.ltb_spec (Z.of_nat j + 1) 0); [lia|].
    rewrite !Z.min_l by lia. f_equal; lia. }
  rewrite He. split; [done|]. split.
  - rewrite String.substring_correct1 by lia. done.
  - rewrite String.substring_correct1 by lia.
    by replace (j - i + i)%nat with j by lia.
Qed.

Lemma json_string_between_brackets_witness :
  App.json_string "Here: [1] ok" = String.substring 6 (8 - 6 + 1) "Here: [1] ok"
  ∧ String.get 0 (App.json_string "Here: [1] ok") = Some "["%char
  ∧ String.get (8 - 6) (App.json_string "Here: [1] ok") = Some "]"%char.
Proof.
  apply json_string_between_brackets; [reflexivity | reflexivity | lia].
Defined.

(** ** Transcription: properties *)

Lemma for_each_raises {A S : Type} (body : S → A → result S) xs x :
  x ∈ xs → (∀ st, ∃ e, body st x = Raise e) →
  ∀ st, ∃ e, for_each body xs st = Raise e.
Proof.
  intros Hx Hbad. induction xs as [|y xs IH]; intros st; [by inversion Hx|].
  simpl. apply elem_of_cons in Hx as [->|Hx].
  - destruct (Hbad st) as [e ->]. eauto.
  - destruct (body st y) as [st'|e]; simpl; eauto.
Qed.

Section TranscriptionFacts.
Context `{WhisperLib}.

Lemma word_entry_fields word_info entry :
  Transcription.word_entry word_info = Ok entry →
  entry !! "text" = word_info !! "word"
  ∧ entry !! "start" = word_info !! "start"
  ∧ entry !! "end" = word_info !! "end"
  ∧ dom entry = ({["text"; "start"; "end"]} : gset string).
Proof.
  unfold Transcription.word_entry, dict_getitem.
  destruct (word_info !! "word") as [w|]; [|done].
  destruct (word_info !! "start") as [s|]; [|done].
  destruct (word_info !! "end") as [e|]; [|done].
  cbn [mbind result_bind]. intros [= <-].
  split; [by simplify_map_eq|]. split; [by simplify_map_eq|].
  split; [by simplify_map_eq|].
  rewrite !dom_insert_L, dom_singleton_L. set_solver.
Qed.

Lemma words_loop_run words entries acc :
  Forall2 (λ w o, Transcription.word_entry w = Ok o) words entries →
  for_each (λ acc word_info,
              entry ← Transcription.word_entry word_info; Ok (acc ++ [entry]))
           words acc
  = Ok (acc ++ entries).
Proof.
  intros Hall. revert acc.
  induction Hall as [|w o ws os Hw _ IH]; intros acc; simpl.
  - by rewrite app_nil_r.
  - rewrite Hw. simpl. rewrite IH. by rewrite <- app_assoc.
Qed.

Lemma segments_loop_run segments wss entries acc :
  Forall2 (λ seg ws, seg !! "words" = Some ws) segments wss →
  Forall2 (λ w o, Transcription.word_entry w = Ok o) (concat wss) entries →
  for_each Transcription.segment_body segments acc = Ok (acc ++ entries).
Proof.
  intros Hseg. revert entries acc.
  induction Hseg as [|seg ws segs wss Hw _ IH]; intros entries acc Hall;
    cbn [for_each].
  - inversion Hall. by rewrite app_nil_r.
  - cbn [concat] in Hall.
    apply Forall2_app_inv_l in Hall as (e1 & e2 & H1 & H2 & ->).
    assert (Hb : Transcription.segment_body acc seg = Ok (acc ++ e1)).
    { unfold Transcription.segment_body, dict_getitem. rewrite Hw.
      cbn [mbind result_bind]. by apply words_loop_run. }
    rewrite Hb. cbn [mbind result_bind]. rewrite (IH _ _ H2).
    by rewrite <- app_assoc.
Qed.

(** X11. When the model loads, the transcription has its segments, each
    segment its words and each word its three keys, the function returns
    one entry per word, in the order of the segments and of the words in
    them; an entry has exactly the keys [text], [start] and [end], holding
    the word's [word], [start] and [end]. *)
Theorem transcription_flattens_words (audio_path model_name : string)
    (model : whisper_model)
    (transcription : gmap string (list (gmap string (list (gmap string pyval)))))
    (segments : list (gmap string (list (gmap string pyval))))
    (wss : list (list (gmap string pyval))) (entries : list (gmap string pyval)) :
  load_model model_name = Ok model →
  transcribe model audio_path = Ok transcription →
  transcription !! "segments" = Some segments →
  Forall2 (λ seg ws, seg !! "words" = Some ws) segments wss →
  Forall2 (λ w o, Transcription.word_entry w = Ok o) (concat wss) entries →
  Transcription.transcribe_audio_with_whisper audio_path model_name = Some entries
  ∧ length entries = length (concat wss)
  ∧ Forall2 (λ w o, o !! "text" = w !! "word" ∧ o !! "start" = w !! "start"
                    ∧ o !! "end" = w !! "end"
                    ∧ dom o = ({["text"; "start"; "end"]} : gset string))
            (concat wss) entries.
Proof.
  intros Hl Ht Hs Hseg Hall. split; [|split].
  - unfold Transcription.transcribe_audio_with_whisper, Transcription.try_transcribe.
    rewrite Hl. cbn [mbind result_bind]. rewrite Ht. cbn [mbind result_bind].
    unfold dict_getitem. rewrite Hs. cbn [mbind result_bind].
    by rewrite (segments_loop_run _ _ _ _ Hseg Hall).
  - symmetry. by eapply Forall2_length.
  - eapply Forall2_impl; [exact Hall|]. intros w o. apply word_entry_fields.
Qed.

(** X12. When the model does not load, the transcription raises, it has
    no [segments], a segment has no [words], or a word lacks one of its
    three keys, the function returns [None]: never a shorter list. *)
Theorem transcription_all_or_nothing (audio_path model_name : string) :
  (∃ e, load_model model_name = Raise e)
  ∨ (∃ model, load_model model_name = Ok model
      ∧ ((∃ e, transcribe model audio_path = Raise e)
         ∨ ∃ transcription, transcribe model audio_path = Ok transcription
             ∧ (transcription !! "segments" = None
                ∨ ∃ segments seg, transcription !! "segments" = Some segments
                    ∧ seg ∈ segments
                    ∧ (seg !! "words" = None
                       ∨ ∃ words w, seg !! "words" = Some words ∧ w ∈ words
                           ∧ (w !! "word" = None ∨ w !! "start" = None
                              ∨ w !! "end" = None))))) →
  Transcription.transcribe_audio_with_whisper audio_path model_name = None.
Proof.
  unfold Transcription.transcribe_audio_with_whisper, Transcription.try_transcribe.
  intros [[e ->]|(model & -> & Hrest)]; [done|]. cbn [mbind result_bind].
  destruct Hrest as [[e ->]|(tr & -> & Hrest)]; [done|]. cbn [mbind result_bind].
  unfold dict_getitem at 1.
  destruct Hrest as [->|(segments & seg & -> & Hseg & Hbad)]; [done|].
  cbn [mbind result_bind].
  assert (Hr : ∃ e, for_each Transcription.segment_body segments [] = Raise e);
    [|by destruct Hr as [e ->]].
  apply (for_each_raises _ _ seg Hseg). intros acc.
  unfold Transcription.segment_body, dict_getitem at 1.
  destruct Hbad as [->|(words & w & -> & Hw & Hkey)]; [by eexists|].
  cbn [mbind result_bind]. apply (for_each_raises _ _ w Hw). intros acc'.
  unfold Transcription.word_entry, dict_getitem.
  destruct Hkey as [->|[Hk|Hk]]; [by eexists| |].
  - destruct (w !! "word"); [|by eexists]. rewrite Hk. by eexists.
  - destruct (w !! "word"); [|by eexists]. destruct (w !! "start"); [|by eexists].
    rewrite Hk. by eexists.
Qed.

End TranscriptionFacts.

Lemma transcription_flattens_words_witness :
  @Transcription.transcribe_audio_with_whisper
     (fixed_whisper {["segments" := [ {["words" := [word_of "Hello" 0 1]]};
                                      {["words" := [word_of "world" 1 2]]} ]]})
     "audio.mp3" "base"
  = Some [ <["text" := PyStr "Hello"]> (<["start" := PyNum 0]> {["end" := PyNum 1]});
           <["text" := PyStr "world"]> (<["start" := PyNum 1]> {["end" := PyNum 2]}) ].
Proof.
  refine (proj1 (@transcription_flattens_words
           (fixed_whisper {["segments" := [ {["words" := [word_of "Hello" 0 1]]};
                                            {["words" := [word_of "world" 1 2]]} ]]})
           "audio.mp3" "base" () _ _
           [[word_of "Hello" 0 1]; [word_of "world" 1 2]] _ _ _ _ _ _)).
  - reflexivity.
  - reflexivity.
  - reflexivity.
  - repeat constructor.
  - repeat constructor.
Defined.

Lemma transcription_all_or_nothing_witness :
  @Transcription.transcribe_audio_with_whisper
     (fixed_whisper {["segments" := [ {["words" := [word_of "Hello" 0 1]]};
                                      {["words" := [ {["word" := PyStr "world"]} ]]} ]]})
     "audio.mp3" "base"
  = None.
Proof.
  apply (@transcription_all_or_nothing
           (fixed_whisper {["segments" := [ {["words" := [word_of "Hello" 0 1]]};
                                            {["words" := [ {["word" := PyStr "world"]} ]]} ]]})).
  right. exists (). split; [reflexivity|]. right. eexists. split; [reflexivity|].
  right. eexists _, {["words" := [ {["word" := PyStr "world"]} ]]}.
  split; [reflexivity|]. split; [right; left|].
  right. eexists _, {["word" := PyStr "world"]}. split; [reflexivity|].
  split; [left|]. right. left. reflexivity.
Defined.

(** ** Timeline assembly: further properties *)

Lemma build_overlay_map_snoc `{MoviePy} cues c :
  Assembly.build_overlay_map (cues ++ [c])
  = if String.eqb (cue_type c) "overlay"
    then <[dialogue_index c := content c]> (Assembly.build_overlay_map cues)
    else Assembly.build_overlay_map cues.
Proof. unfold Assembly.build_overlay_map. by rewrite foldl_app. Qed.

(** X13. The overlay map holds, under a key [k], the content of the last
    overlay cue whose [dialogue_index] is [k], and no entry when there is
    no such cue; cues of the other types never enter it. *)
Theorem overlay_map_last_wins `{MoviePy} (script_cues : list cue) (k : Z) :
  Assembly.build_overlay_map script_cues !! k
  = content <$> last (filter (λ c, cue_type c = "overlay" ∧ dialogue_index c = k)
                             script_cues).
Proof.
  induction script_cues as [|c cues IH] using rev_ind; [done|].
  rewrite build_overlay_map_snoc, filter_app, filter_cons, filter_nil.
  destruct (String.eqb_spec (cue_type c) "overlay") as [Hov|Hov].
  - destruct (decide (dialogue_index c = k)) as [Hk|Hk].
    + rewrite decide_True by done. rewrite last_snoc. subst k.
      by rewrite lookup_insert_eq.
    + rewrite decide_False by tauto. rewrite app_nil_r.
      by rewrite lookup_insert_ne.
  - rewrite decide_False by tauto. by rewrite app_nil_r.
Qed.

Lemma assets_loop_str_total files text items m0 :
  ∃ m, BRoll.assets_loop files (PyStr text) items m0 = Ok m.
Proof.
  revert m0. induction items as [|[f kws] items IH]; intros m0; simpl; eauto.
  rewrite keywords_loop_str. simpl. destruct (path_truthy _); eauto.
Qed.


Section Segments.
Context `{MoviePy}.
Variables (main_clip : clip) (overlay_map : gmap Z string).
Variables (b_roll_files : gmap string string)
          (b_roll_keyword_map : list (string * list string)).
Variables (add_subtitles add_b_roll add_overlays : bool).

Local Abbreviation body :=
  (Assembly.cut_loop_body main_clip overlay_map b_roll_files b_roll_keyword_map
                          add_subtitles add_b_roll add_overlays).
Local Abbreviation upto :=
  (Assembly.clips_upto main_clip overlay_map b_roll_files b_roll_keyword_map
                       add_subtitles add_b_roll add_overlays).
Local Abbreviation segments :=
  (Assembly.compose_segments main_clip overlay_map b_roll_files b_roll_keyword_map
                             add_subtitles add_b_roll add_overlays).
Local Abbreviation b_roll :=
  (Assembly.b_roll_step main_clip b_roll_files b_roll_keyword_map add_b_roll).
Local Abbreviation layers_of :=
  (Assembly.build_layers main_clip overlay_map add_subtitles add_overlays).

Lemma b_roll_step_str_total (text : string) (clip_duration : pyval)
    (current_clip : clip) :
  ∃ c, b_roll (PyStr text) clip_duration current_clip = Ok c.
Proof.
  unfold Assembly.b_roll_step. destruct (add_b_roll && _); [|eauto].
  unfold BRoll.match_b_roll.
  destruct (assets_loop_str_total b_roll_files text b_roll_keyword_map None)
    as [m ->].
  cbn [mbind result_bind]. destruct m as [path|]; [|eauto].
  destruct (PyStr.truthy path); [|eauto].
  destruct (VideoFileClip path) as [b|]; cbn [mbind result_bind]; [|eauto].
  destruct (fit_b_roll _ _ _ _); eauto.
Qed.


(** X15. The layers of a segment are the base clip, then the subtitle
    layer, then the overlay layer. The subtitle layer is there exactly
    when subtitles are on and its text clip renders; the overlay layer is
    there exactly when overlays are on, the overlay map has an entry for
    the cut's position and its text clip renders. So a text layer that
    fails to render is left out, and the other layers are what they are
    without it. *)
Theorem layers_start_with_base (i : nat) (dialogue_text clip_duration : pyval)
    (current_clip : clip) :
  ∃ subtitle overlay,
    layers_of i dialogue_text clip_duration current_clip
    = current_clip :: subtitle ++ overlay
    ∧ (∀ t, subtitle = [t] ↔
            add_subtitles = true
            ∧ subtitle_clip main_clip dialogue_text clip_duration = Ok t)
    ∧ (subtitle = [] ∨ ∃ t, subtitle = [t])
    ∧ (∀ o, overlay = [o] ↔
            add_overlays = true
            ∧ ∃ text, overlay_map !! Z.of_nat i = Some text
                      ∧ overlay_clip main_clip text clip_duration = Ok o)
    ∧ (overlay = [] ∨ ∃ o, overlay = [o]).
Proof.
  unfold Assembly.build_layers, subtitle_clip, overlay_clip.
  set (sub := Assembly.create_text_clip dialogue_text _ _ _ _).
  exists (if add_subtitles then match sub with Ok t => [t] | Raise _ => [] end else []),
         (if add_overlays then
            match overlay_map !! Z.of_nat i with
            | Some text =>
                match Assembly.create_text_clip (PyStr text) clip_duration
                        (clip_size main_clip) 25 (Anchor "center") with
                | Ok o => [o]
                | Raise _ => []
                end
            | None => []
            end
          else []).
  split; [|split; [|split; [|split]]].
  - destruct add_subtitles, add_overlays, sub; try done;
      destruct (overlay_map !! Z.of_nat i) as [text|]; try done;
      destruct (Assembly.create_text_clip (PyStr text) _ _ _ _); done.
  - intros t. destruct add_subtitles; [|split; [done | by intros [? _]]].
    destruct sub as [t'|]; split; try done.
    + intros [= ->]. done.
    + intros [_ [= ->]]. done.
    + intros [_ ?]. done.
  - destruct add_subtitles; [|by left]. destruct sub; eauto.
  - intros o. destruct add_overlays; [|split; [done | by intros [? _]]].
    destruct (overlay_map !! Z.of_nat i) as [text|];
      [|split; [done | by intros (_ & ? & ? & _)]].
    destruct (Assembly.create_text_clip (PyStr text) _ _ _ _) as [o'|] eqn:Ho.
    + split; [intros [= ->]; eauto|]. intros (_ & text' & [= <-] & Ho').
      rewrite Ho in Ho'. by injection Ho' as ->.
    + split; [done|]. intros (_ & text' & [= <-] & Ho'). rewrite Ho in Ho'. done.
  - destruct add_overlays; [|by left].
    destruct (overlay_map !! Z.of_nat i) as [text|]; [|by left].
    destruct (Assembly.create_text_clip (PyStr text) _ _ _ _); eauto.
Qed.

(** X16. A cut that is an object with numeric [start] and [end], [start]
    before [end], and a string [text] adds exactly one segment when the
    sub-clip can be cut out of the footage, whatever the b-roll, text and
    compositing calls do; and it adds nothing when cutting the sub-clip
    raises. *)
Theorem valid_cut_gives_one_segment (final_clips : list clip) (i : nat)
    (cut : gmap string pyval) (s e : pyval) (x y : Q) (text : string) :
  cut !! "start" = Some s → cut !! "end" = Some e →
  cut !! "text" = Some (PyStr text) →
  PyVal.as_number s = Some x → PyVal.as_number e = Some y → (x < y)%Q →
  ((∃ c, subclip main_clip s e = Ok c) →
     ∃ seg, body final_clips (i, CutDict cut) = Ok (final_clips ++ [seg]))
  ∧ ((∃ err, subclip main_clip s e = Raise err) →
     body final_clips (i, CutDict cut) = Ok final_clips).
Proof.
  intros Hs He Ht Hx Hy Hxy.
  assert (Hgt : PyVal.gt e s = Ok true).
  { unfold PyVal.gt. rewrite Hx, Hy.
    assert (Qle_bool y x = false) as ->.
    { destruct (Qle_bool y x) eqn:E; [|done].
      apply Qle_bool_iff in E. by apply Qlt_not_le in Hxy. }
    destruct e; try done; destruct s; done. }
  assert (Hsub : PyVal.sub e s = Ok (PyNum (y - x)%Q))
    by (unfold PyVal.sub; by rewrite Hx, Hy).
  unfold Assembly.cut_loop_body, Assembly.try_cut, CutEntry.getitem, CutEntry.get,
    PyVal.getitem. cbn [fst snd].
  rewrite Hs, He, Ht. cbn [mbind result_bind]. rewrite Hgt. cbn [mbind result_bind].
  rewrite Hsub. cbn [mbind result_bind]. split.
  - intros [c ->]. cbn [mbind result_bind].
    destruct (b_roll_step_str_total text (PyNum (y - x)%Q) c) as [c' ->].
    cbn [mbind result_bind]. destruct (CompositeVideoClip _); eauto.
  - intros [err ->]. done.
Qed.

Lemma for_each_body_prefix (ics : list (nat * cut_entry))
    (final_clips final_clips' : list clip) :
  for_each body ics final_clips = Ok final_clips' →
  final_clips `prefix_of` final_clips'.
Proof.
  revert final_clips. induction ics as [|ic ics IH]; intros final_clips; simpl.
  - by intros [= <-].
  - destruct (body final_clips ic) as [fc1|] eqn:Hb; [|done].
    cbn [mbind result_bind]. intros Hrest. apply IH in Hrest.
    destruct (body_appends_at_most_one _ _ _ _ _ _ _ _ _ _ Hb) as [->|[seg ->]];
      [done|]. etrans; [|exact Hrest]. by apply prefix_app_r.
Qed.

Lemma upto_split (cut_list : list cut_entry) (n m : nat) :
  (n ≤ m)%nat →
  upto cut_list m
  = (final_clips ← upto cut_list n;
     for_each body (drop n (take m (enumerate cut_list))) final_clips).
Proof.
  intros Hnm. unfold Assembly.clips_upto. rewrite <- for_each_app. f_equal.
  rewrite <- (take_drop n (take m (enumerate cut_list))) at 1.
  f_equal. rewrite take_take. f_equal. lia.
Qed.

(** X17. The list of segments only grows while the cuts are processed:
    when the loop gets through [m] cuts it got through any [n <= m] cuts,
    and what was there after [n] cuts is still there, in place, after
    [m]; on a cut list whose entries are all objects this is so for every
    [n <= m]. *)
Theorem segments_only_grow (cut_list : list cut_entry) (n m : nat) :
  (n ≤ m)%nat →
  (∀ later, upto cut_list m = Ok later →
     ∃ earlier, upto cut_list n = Ok earlier ∧ earlier `prefix_of` later)
  ∧ (Forall is_dict cut_list →
     ∃ earlier later, upto cut_list n = Ok earlier ∧ upto cut_list m = Ok later
                      ∧ earlier `prefix_of` later).
Proof.
  intros Hnm.
  assert (Hgrow : ∀ later, upto cut_list m = Ok later →
            ∃ earlier, upto cut_list n = Ok earlier ∧ earlier `prefix_of` later).
  { intros later Hm. rewrite (upto_split _ _ _ Hnm) in Hm.
    destruct (upto cut_list n) as [earlier|]; [|done].
    exists earlier. split; [done|]. by eapply for_each_body_prefix. }
  split; [done|]. intros Hall.
  destruct (dict_list_completes main_clip overlay_map b_roll_files
              b_roll_keyword_map add_subtitles add_b_roll add_overlays
              cut_list m Hall) as [later Hm].
  destruct (Hgrow later Hm) as (earlier & Hn & Hpre). by exists earlier, later.
Qed.

Lemma enumerate_from_app {A} (xs ys : list A) i :
  enumerate_from i (xs ++ ys)
  = enumerate_from i xs ++ enumerate_from (i + length xs) ys.
Proof.
  revert i. induction xs as [|x xs IH]; intros i; simpl.
  - by rewrite Nat.add_0_r.
  - rewrite IH. by replace (S i + length xs)%nat with (i + S (length xs))%nat by lia.
Qed.

(** X18. Processing a cut list made of two parts is processing the first
    part and then going on with the second, whose cuts keep their
    positions in the whole list; so when the whole list gets through, the
    first part alone gets through too and its segments are the first of
    the whole list's, whatever comes after it. *)
Theorem segments_of_appended_cuts (cuts1 cuts2 : list cut_entry) :
  segments (cuts1 ++ cuts2)
  = (final_clips ← segments cuts1;
     for_each body (enumerate_from (length cuts1) cuts2) final_clips)
  ∧ (∀ whole, segments (cuts1 ++ cuts2) = Ok whole →
       ∃ first, segments cuts1 = Ok first ∧ first `prefix_of` whole)
  ∧ (Forall is_dict (cuts1 ++ cuts2) →
       ∃ first whole, segments cuts1 = Ok first
                      ∧ segments (cuts1 ++ cuts2) = Ok whole
                      ∧ first `prefix_of` whole).
Proof.
  assert (Heq : segments (cuts1 ++ cuts2)
                = (final_clips ← segments cuts1;
                   for_each body (enumerate_from (length cuts1) cuts2) final_clips)).
  { unfold Assembly.compose_segments, enumerate.
    by rewrite enumerate_from_app, for_each_app. }
  assert (Hpre : ∀ whole, segments (cuts1 ++ cuts2) = Ok whole →
            ∃ first, segments cuts1 = Ok first ∧ first `prefix_of` whole).
  { intros whole Hw. rewrite Heq in Hw.
    destruct (segments cuts1) as [first|]; [|done].
    exists first. split; [done|]. by eapply for_each_body_prefix. }
  split; [done|]. split; [done|]. intros Hall.
  destruct (dict_list_completes main_clip overlay_map b_roll_files
              b_roll_keyword_map add_subtitles add_b_roll add_overlays
              (cuts1 ++ cuts2) (length (cuts1 ++ cuts2)) Hall) as [whole Hw].
  rewrite upto_length in Hw.
  destruct (Hpre whole Hw) as (first & H1 & Hp). by exists first, whole.
Qed.

End Segments.

(** X19. A logo that cannot be added leaves the run as it is without a
    logo: when the logo is switched off, no logo file is given, building
    the logo clip raises or compositing it raises, [finish] returns and
    writes exactly what it does with the logo switched off. *)
Theorem logo_failure_is_no_logo `{MoviePy} (main_clip : clip)
    (logo_file : option string) (add_logo : bool) (final_clips : list clip)
    (final_video : clip) :
  concatenate_videoclips final_clips = Ok final_video →
  (add_logo = false ∨ path_truthy logo_file = false
   ∨ ∃ file, logo_file = Some file
       ∧ ((∃ e, logo_clip file final_video ((clip_size main_clip).2 ÷ 12) = Raise e)
          ∨ ∃ logo e,
              logo_clip file final_video ((clip_size main_clip).2 ÷ 12) = Ok logo
              ∧ CompositeVideoClip [final_video; logo] = Raise e)) →
  Assembly.finish main_clip logo_file add_logo final_clips
  = Assembly.finish main_clip None false final_clips.
Proof.
  intros Hc Hlogo. unfold Assembly.finish. rewrite Hc.
  replace (Assembly.logo_step main_clip logo_file add_logo final_video)
    with final_video; [done|].
  unfold Assembly.logo_step.
  destruct Hlogo as [->|[Hp|(file & -> & Hfail)]]; [done | |].
  - by rewrite Hp, andb_false_r.
  - destruct (add_logo && _); [|done].
    destruct Hfail as [[e ->]|(logo & e & -> & Hcomp)]; [done|].
    cbn [mbind result_bind]. by rewrite Hcomp.
Qed.



Lemma layers_start_with_base_witness :
  ∃ subtitle overlay,
    @Assembly.build_layers symbolic_moviepy (SFile "raw.mp4") {[0 := "Title"]}
       true true 0 PyNone (PyNum 2) (SFile "cut")
    = SFile "cut" :: subtitle ++ overlay
    ∧ subtitle = []
    ∧ overlay = [SText (PyStr "Title") 76 1920 (Anchor "center") (PyNum 2)].
Proof.
  destruct (@layers_start_with_base symbolic_moviepy (SFile "raw.mp4") {[0 := "Title"]}
              true true 0 PyNone (PyNum 2) (SFile "cut"))
    as (subtitle & overlay & Heq & Hsub & Hsub' & Hov & _).
  exists subtitle, overlay. split; [exact Heq|]. split.
  - destruct Hsub' as [->|[t ->]]; [reflexivity|].
    destruct (proj1 (Hsub t) eq_refl) as [_ Habs]. discriminate Habs.
  - apply Hov. split; [reflexivity|]. exists "Title". split; reflexivity.
Defined.

Lemma valid_cut_gives_one_segment_witness :
  ∃ seg,
    @Assembly.cut_loop_body symbolic_moviepy (SFile "raw.mp4") ∅ ∅ [] true true true
       [] (0%nat, CutDict (cut_of (PyNum 1) (PyNum 3) (PyStr "Hello world")))
    = Ok ([] ++ [seg]).
Proof.
  refine (proj1 (@valid_cut_gives_one_segment symbolic_moviepy (SFile "raw.mp4") ∅ ∅ []
           true true true [] 0%nat (cut_of (PyNum 1) (PyNum 3) (PyStr "Hello world"))
           (PyNum 1) (PyNum 3) 1%Q 3%Q "Hello world" _ _ _ _ _ _) _).
  - reflexivity.
  - reflexivity.
  - reflexivity.
  - reflexivity.
  - reflexivity.
  - reflexivity.
  - eexists. reflexivity.
Defined.

Lemma segments_only_grow_witness :
  ∃ earlier later,
    @Assembly.clips_upto symbolic_moviepy (SFile "raw.mp4") ∅ ∅ [] true true true
       [CutDict (cut_of (PyNum 1) (PyNum 3) (PyStr "Hello"));
        CutDict (cut_of (PyNum 5) (PyNum 4) (PyStr "x"))] 1 = Ok earlier
    ∧ @Assembly.clips_upto symbolic_moviepy (SFile "raw.mp4") ∅ ∅ [] true true true
        [CutDict (cut_of (PyNum 1) (PyNum 3) (PyStr "Hello"));
         CutDict (cut_of (PyNum 5) (PyNum 4) (PyStr "x"))] 2 = Ok later
    ∧ earlier `prefix_of` later.
Proof.
  apply (@segments_only_grow symbolic_moviepy); [lia | repeat constructor].
Defined.

Lemma logo_failure_is_no_logo_witness :
  @Assembly.finish symbolic_moviepy (SFile "raw.mp4") (Some "") true [SFile "seg"]
  = @Assembly.finish symbolic_moviepy (SFile "raw.mp4") None false [SFile "seg"].
Proof.
  apply (@logo_failure_is_no_logo symbolic_moviepy (SFile "raw.mp4") (Some "") true
           [SFile "seg"] (SConcat [SFile "seg"])).
  - reflexivity.
  - right. left. reflexivity.
Defined.

